(** * localstag: the spatial-graph versioning engine

    A shallow embedding of the Go sources of the stag service:
    - [internal/performance] hasher (content hash over a sampled byte feed,
      geometric signature of a mesh),
    - [internal/storage] bolt store (four buckets of ordered keys),
    - [internal/stag] service (event processing, history pagination),
    followed by the properties of the versioning engine. *)

From Stdlib Require Import ZArith List String Ascii Bool Lia.
From Stdlib Require Import DecimalString SpecFloat Sorted OrderedTypeEx.
From stdpp Require Import base option strings gmap.
Import ListNotations.

Local Open Scope string_scope.
Local Open Scope list_scope.
Local Open Scope Z_scope.

(* ===================================================================== *)
(** * Bytes and little-endian encoding ([encoding/binary]) *)
(* ===================================================================== *)

(** A byte is an integer in [0, 256); a byte string is a list of them. *)
Definition bytes := list Z.

Definition bytes_of_string (s : string) : bytes :=
  map (fun c => Z.of_N (N_of_ascii c)) (list_ascii_of_string s).

(** [le_bytes n x]: the [n] low-order bytes of [x], least significant first. *)
Fixpoint le_bytes (n : nat) (x : Z) : bytes :=
  match n with
  | O => []
  | S n' => (x mod 256) :: le_bytes n' (x / 256)
  end.

(** Go's conversion [int32(x)] keeps the low 32 bits; [binary.Write] then
    emits their two's-complement pattern, that is [x mod 2^32]. *)
Definition le_int32 (x : Z) : bytes := le_bytes 4 (x mod 2 ^ 32).
Definition le_uint32 (x : Z) : bytes := le_bytes 4 x.
Definition le_uint64 (x : Z) : bytes := le_bytes 8 x.

(** A [float64] is carried as its IEEE-754 binary64 bit pattern, which is
    what [binary.Write] emits. *)
Definition float64 := Z.
Definition le_float64 (x : float64) : bytes := le_bytes 8 x.


(* ===================================================================== *)
(** * MD5 ([crypto/md5]) *)
(* ===================================================================== *)

Module MD5.

Definition add32 (a b : Z) : Z := (a + b) mod 2 ^ 32.
Definition not32 (a : Z) : Z := Z.lxor a (2 ^ 32 - 1).
Definition rotl32 (x c : Z) : Z :=
  Z.lor (Z.shiftl x c mod 2 ^ 32) (Z.shiftr x (32 - c)).

Definition S_table : list Z :=
  [7; 12; 17; 22; 7; 12; 17; 22; 7; 12; 17; 22; 7; 12; 17; 22;
   5; 9; 14; 20; 5; 9; 14; 20; 5; 9; 14; 20; 5; 9; 14; 20;
   4; 11; 16; 23; 4; 11; 16; 23; 4; 11; 16; 23; 4; 11; 16; 23;
   6; 10; 15; 21; 6; 10; 15; 21; 6; 10; 15; 21; 6; 10; 15; 21].

Definition K_table : list Z :=
  [3614090360; 3905402710; 606105819; 3250441966; 4118548399; 1200080426;
   2821735955; 4249261313; 1770035416; 2336552879; 4294925233; 2304563134;
   1804603682; 4254626195; 2792965006; 1236535329; 4129170786; 3225465664;
   643717713; 3921069994; 3593408605; 38016083; 3634488961; 3889429448;
   568446438; 3275163606; 4107603335; 1163531501; 2850285829; 4243563512;
   1735328473; 2368359562; 4294588738; 2272392833; 1839030562; 4259657740;
   2763975236; 1272893353; 4139469664; 3200236656; 681279174; 3936430074;
   3572445317; 76029189; 3654602809; 3873151461; 530742520; 3299628645;
   4096336452; 1126891415; 2878612391; 4237533241; 1700485571; 2399980690;
   4293915773; 2240044497; 1873313359; 4264355552; 2734768916; 1309151649;
   4149444226; 3174756917; 718787259; 3951481745].

Definition word_of_le (b : bytes) : Z :=
  fold_right (fun x acc => x + 256 * acc) 0 b.

(** The sixteen 32-bit words of a 64-byte block. *)
Fixpoint words (n : nat) (b : bytes) : list Z :=
  match n with
  | O => []
  | S n' => word_of_le (firstn 4 b) :: words n' (skipn 4 b)
  end.

Record state := State { sa : Z; sb : Z; sc : Z; sd : Z }.

Definition init : state :=
  State 1732584193 4023233417 2562383102 271733878.

Definition round (m : list Z) (st : state) (i : Z) : state :=
  let '(State a b c d) := st in
  let '(f, g) :=
    if i <? 16 then (Z.lor (Z.land b c) (Z.land (not32 b) d), i)
    else if i <? 32 then
      (Z.lor (Z.land d b) (Z.land (not32 d) c), (5 * i + 1) mod 16)
    else if i <? 48 then (Z.lxor b (Z.lxor c d), (3 * i + 5) mod 16)
    else (Z.lxor c (Z.lor b (not32 d)), (7 * i) mod 16) in
  let f' := add32 (add32 (add32 f a) (nth (Z.to_nat i) K_table 0))
                  (nth (Z.to_nat g) m 0) in
  State d (add32 b (rotl32 f' (nth (Z.to_nat i) S_table 0))) b c.

Definition block (st : state) (blk : bytes) : state :=
  let m := words 16 blk in
  let st' := fold_left (round m) (map Z.of_nat (seq 0 64)) st in
  State (add32 (sa st) (sa st')) (add32 (sb st) (sb st'))
        (add32 (sc st) (sc st')) (add32 (sd st) (sd st')).

Fixpoint blocks (fuel : nat) (st : state) (msg : bytes) : state :=
  match fuel with
  | O => st
  | S fuel' =>
      match msg with
      | [] => st
      | _ => blocks fuel' (block st (firstn 64 msg)) (skipn 64 msg)
      end
  end.

Definition pad (msg : bytes) : bytes :=
  let len := Z.of_nat (List.length msg) in
  let zeros := Z.to_nat ((55 - len) mod 64) in
  msg ++ [128] ++ repeat 0 zeros ++ le_bytes 8 ((8 * len) mod 2 ^ 64).

Definition sum (msg : bytes) : bytes :=
  let p := pad msg in
  let st := blocks (S (List.length p)) init p in
  le_bytes 4 (sa st) ++ le_bytes 4 (sb st) ++
  le_bytes 4 (sc st) ++ le_bytes 4 (sd st).

End MD5.

(** [fmt.Sprintf("%x", b)]: two lower-case hex digits per byte. *)
Definition hex_digit (d : Z) : ascii :=
  nth (Z.to_nat d) (list_ascii_of_string "0123456789abcdef") "0"%char.

Fixpoint hex_of_bytes (b : bytes) : string :=
  match b with
  | [] => EmptyString
  | x :: r => String (hex_digit (x / 16)) (String (hex_digit (x mod 16)) (hex_of_bytes r))
  end.

(* ===================================================================== *)
(** * float64 arithmetic ([math], [strconv]) *)
(* ===================================================================== *)

(** The verb [%d]. *)
Definition decimal (z : Z) : string := NilZero.string_of_int (Z.to_int z).

Module F64.

Definition prec : Z := 53.
Definition emax : Z := 1024.

(** Decoding of a binary64 bit pattern. *)
Definition of_bits (x : float64) : spec_float :=
  let s := Z.testbit x 63 in
  let e := Z.shiftr x 52 mod 2048 in
  let m := x mod 2 ^ 52 in
  if e =? 0 then
    match m with
    | Zpos p => S754_finite s p (-1074)
    | _ => S754_zero s
    end
  else if e =? 2047 then
    (if m =? 0 then S754_infinity s else S754_nan)
  else
    match m + 2 ^ 52 with
    | Zpos p => S754_finite s p (e - 1075)
    | _ => S754_nan
    end.

Definition sub (x y : spec_float) : spec_float := SFsub prec emax x y.
Definition mul (x y : spec_float) : spec_float := SFmul prec emax x y.

Definition is_inf (sign : bool) (x : spec_float) : bool :=
  match x with
  | S754_infinity s => Bool.eqb s sign
  | _ => false
  end.

Definition is_nan (x : spec_float) : bool :=
  match x with S754_nan => true | _ => false end.

Definition is_zero (x : spec_float) : bool :=
  match x with S754_zero _ => true | _ => false end.

Definition signbit (x : spec_float) : bool :=
  match x with
  | S754_zero s | S754_infinity s | S754_finite s _ _ => s
  | S754_nan => false
  end.

(** [math.Min] and [math.Max], special cases first as in package [math]. *)
Definition min (x y : spec_float) : spec_float :=
  if is_inf true x || is_inf true y then S754_infinity true
  else if is_nan x || is_nan y then S754_nan
  else if is_zero x && is_zero y then (if signbit x then x else y)
  else if SFltb x y then x else y.

Definition max (x y : spec_float) : spec_float :=
  if is_inf false x || is_inf false y then S754_infinity false
  else if is_nan x || is_nan y then S754_nan
  else if is_zero x && is_zero y then (if signbit x then y else x)
  else if SFltb y x then x else y.

(** [n] rounded to the nearest multiple of [d], ties to even, divided by [d]. *)
Definition div_half_even (n d : Z) : Z :=
  let q := n / d in
  let r := n mod d in
  match 2 * r ?= d with
  | Lt => q
  | Gt => q + 1
  | Eq => if Z.even q then q else q + 1
  end.

Definition pad3 (z : Z) : string :=
  (if z <? 10 then "00" else if z <? 100 then "0" else "") +:+ decimal z.

(** The verb [%.3f]: the exact value rounded to three decimals. *)
Definition format_3f (x : spec_float) : string :=
  match x with
  | S754_nan => "NaN"
  | S754_infinity s => if s then "-Inf" else "+Inf"
  | S754_zero s => (if s then "-" else "") +:+ "0.000"
  | S754_finite s m e =>
      let q :=
        if 0 <=? e then Zpos m * 2 ^ e * 1000
        else div_half_even (Zpos m * 1000) (2 ^ (- e)) in
      (if s then "-" else "") +:+ decimal (q / 1000) +:+ "." +:+ pad3 (q mod 1000)
  end.

End F64.

(** Bit patterns of a few literals. *)
Definition f64_0 : float64 := 0.
Definition f64_1 : float64 := 0x3FF0000000000000.
Definition f64_2 : float64 := 0x4000000000000000.
Definition f64_half : float64 := 0x3FE0000000000000.

(* ===================================================================== *)
(** * Data model ([internal/storage/types.go]) *)
(* ===================================================================== *)

(** [time.Time] values are carried as Unix seconds. *)
Definition time := Z.

(** Values of [map[string]interface{}] after a JSON round trip. *)
Inductive JValue :=
| JNull
| JBool (b : bool)
| JNum (x : float64)
| JStr (s : string).

Abbreviation Metadata := (gmap string JValue).

(** Fixed-size arrays ([3]float64, [4]float64, [9]float64) are lists whose
    length the Go type fixes. *)
Record Transform := {
  Translation : list float64;
  Rotation : list float64;
  Scale : list float64
}.

Record MeshData := {
  mesh_AnchorID : string;
  Vertices : list float64;
  Faces : list Z;
  mesh_Normals : list float64;
  mesh_Colors : list float64;
  TextureCoords : list float64;
  mesh_Transform : option Transform;
  Classification : string;
  mesh_Confidence : float64
}.

Record PoseData := {
  pose_Transform : option Transform;
  Velocity : list float64;
  Acceleration : list float64;
  AngularVelocity : list float64;
  pose_Confidence : float64
}.

Record CameraData := {
  ImageData : bytes;
  cam_Width : Z;
  cam_Height : Z;
  Format : string;
  Intrinsics : list float64;
  Distortion : list float64;
  cam_Transform : option Transform;
  cam_Timestamp : time;
  Exposure : float64;
  ISO : Z;
  FocalLength : float64
}.

Record DepthData := {
  depth_Data : list float64;
  depth_Width : Z;
  depth_Height : Z;
  depth_Confidence : list float64;
  depth_Transform : option Transform;
  MinRange : float64;
  MaxRange : float64;
  depth_Timestamp : time
}.

Record PointCloudData := {
  Points : list float64;
  pc_Colors : list float64;
  pc_Normals : list float64;
  pc_Confidence : list float64;
  pc_Transform : option Transform;
  pc_Timestamp : time
}.

Record LightingData := {
  AmbientIntensity : float64;
  DirectionalLight : list float64;
  SphericalHarmonics : list float64;
  ColorTemperature : float64;
  light_Transform : option Transform;
  light_Timestamp : time
}.

(** A nil pointer is [None]. *)
Record SpatialEvent := {
  EventID : string;
  EventType : string;
  Timestamp : time;
  ServerTime : time;
  SessionID : string;
  ClientID : string;
  DeviceID : string;
  FrameNumber : Z;
  ev_Transform : option Transform;
  ev_PoseData : option PoseData;
  ev_MeshData : option MeshData;
  ev_CameraData : option CameraData;
  ev_DepthData : option DepthData;
  ev_PointCloudData : option PointCloudData;
  ev_LightingData : option LightingData;
  ev_Metadata : Metadata
}.

Record AnchorVersion := {
  VersionID : string;
  Hash : string;
  ver_Timestamp : time;
  ChangeType : string;
  ver_Transform : option Transform;
  ver_MeshData : option MeshData;
  ver_PoseData : option PoseData;
  ver_CameraData : option CameraData;
  ver_DepthData : option DepthData;
  ver_PointCloudData : option PointCloudData;
  ver_LightingData : option LightingData;
  ver_EventID : string;
  ver_SessionID : string;
  ver_ClientID : string;
  ver_DeviceID : string;
  ver_FrameNumber : Z;
  ver_Metadata : Metadata
}.

Record Anchor := {
  anchor_ID : string;
  anchor_StagID : string;
  CurrentHash : string;
  Versions : list AnchorVersion;
  anchor_CreatedAt : time;
  anchor_UpdatedAt : time;
  LastSessionID : string;
  LastClientID : string;
  LastDeviceID : string;
  anchor_Metadata : Metadata
}.

Record StagStats := {
  AnchorCount : Z;
  VersionCount : Z;
  EventCount : Z;
  SessionCount : Z;
  ClientCount : Z;
  DeviceCount : Z;
  LastActivity : time;
  FirstActivity : time;
  DataSize : Z
}.

Record Stag := {
  stag_ID : string;
  Name : string;
  Description : string;
  stag_CreatedAt : time;
  stag_UpdatedAt : time;
  Anchors : gmap string Anchor;
  Stats : StagStats;
  stag_Metadata : Metadata
}.

Record AnchorHistory := {
  hist_AnchorID : string;
  hist_StagID : string;
  hist_Versions : list AnchorVersion;
  Total : Z;
  Offset : Z;
  Limit : Z
}.

(* ===================================================================== *)
(** * Fingerprinter ([internal/performance], hasher) *)
(* ===================================================================== *)

(** The digest state of a [FastHasher] is the sequence of bytes written
    since the last [Reset]; each [hash*] method below is the sequence it
    writes. *)

(** [for i := 0; i < n; i += step { emit i }] *)
Fixpoint sample_loop (emit : nat -> bytes) (step n fuel i : nat) : bytes :=
  match fuel with
  | O => []
  | S fuel' =>
      if (i <? n)%nat then emit i ++ sample_loop emit step n fuel' (i + step)%nat
      else []
  end.

(** The guarded body [if i+2 < len(v) { write v[i], v[i+1], v[i+2] }]. *)
Definition emit_triple (v : list float64) (i : nat) : bytes :=
  if (i + 2 <? List.length v)%nat then
    le_float64 (nth i v 0) ++ le_float64 (nth (i + 1) v 0) ++
    le_float64 (nth (i + 2) v 0)
  else [].

Definition sampled_triples (v : list float64) : bytes :=
  sample_loop (emit_triple v) 30 (List.length v) (List.length v) 0.

Definition all_floats (v : list float64) : bytes := flat_map le_float64 v.

Definition hashTransform (t : Transform) : bytes :=
  all_floats (Translation t) ++ all_floats (Rotation t) ++ all_floats (Scale t).

Definition hashOptTransform (t : option Transform) : bytes :=
  match t with
  | Some t => hashTransform t
  | None => []
  end.

Definition mesh_vertex_feed (v : list float64) : bytes :=
  let vertexCount := Z.of_nat (List.length v) / 3 in
  if 1000 <? vertexCount then sampled_triples v else all_floats v.

Definition mesh_face_feed (f : list Z) : bytes :=
  let faceCount := List.length f in
  if (1000 <? faceCount)%nat then
    sample_loop (fun i => le_uint32 (nth i f 0)) 10 faceCount faceCount 0
  else flat_map le_uint32 f.

Definition hashMeshData (mesh : MeshData) : bytes :=
  bytes_of_string (mesh_AnchorID mesh) ++
  le_int32 (Z.of_nat (List.length (Vertices mesh))) ++
  le_int32 (Z.of_nat (List.length (Faces mesh))) ++
  mesh_vertex_feed (Vertices mesh) ++
  mesh_face_feed (Faces mesh) ++
  bytes_of_string (Classification mesh) ++
  le_float64 (mesh_Confidence mesh).

Definition hashPoseData (pose : PoseData) : bytes :=
  hashOptTransform (pose_Transform pose) ++
  all_floats (Velocity pose) ++
  all_floats (Acceleration pose) ++
  le_float64 (pose_Confidence pose).

Definition hashCameraData (camera : CameraData) : bytes :=
  le_int32 (cam_Width camera) ++
  le_int32 (cam_Height camera) ++
  bytes_of_string (Format camera) ++
  le_int32 (Z.of_nat (List.length (ImageData camera))) ++
  all_floats (Intrinsics camera) ++
  hashOptTransform (cam_Transform camera).

Definition hashDepthData (depth : DepthData) : bytes :=
  let dataLen := List.length (depth_Data depth) in
  le_int32 (depth_Width depth) ++
  le_int32 (depth_Height depth) ++
  le_int32 (Z.of_nat dataLen) ++
  (if (1000 <? dataLen)%nat then
     sample_loop (fun i => le_float64 (nth i (depth_Data depth) 0)) 10 dataLen dataLen 0
   else all_floats (depth_Data depth)).

Definition hashPointCloudData (pc : PointCloudData) : bytes :=
  let pointCount := Z.of_nat (List.length (Points pc)) / 3 in
  le_int32 (Z.of_nat (List.length (Points pc))) ++
  (if 1000 <? pointCount then sampled_triples (Points pc)
   else all_floats (Points pc)).

Definition hashLightingData (lighting : LightingData) : bytes :=
  le_float64 (AmbientIntensity lighting) ++
  all_floats (DirectionalLight lighting) ++
  all_floats (SphericalHarmonics lighting) ++
  le_float64 (ColorTemperature lighting).

Definition opt_feed {A} (f : A -> bytes) (o : option A) : bytes :=
  match o with
  | Some x => f x
  | None => []
  end.

(** The bytes [CalculateEventHash] writes between [Reset] and [Sum]. *)
Definition event_feed (event : SpatialEvent) : bytes :=
  bytes_of_string (EventType event) ++
  le_uint64 (FrameNumber event) ++
  (if String.eqb (EventType event) "mesh" then opt_feed hashMeshData (ev_MeshData event)
   else if String.eqb (EventType event) "pose" then opt_feed hashPoseData (ev_PoseData event)
   else if String.eqb (EventType event) "camera" then opt_feed hashCameraData (ev_CameraData event)
   else if String.eqb (EventType event) "depth" then opt_feed hashDepthData (ev_DepthData event)
   else if String.eqb (EventType event) "pointCloud" then
     opt_feed hashPointCloudData (ev_PointCloudData event)
   else if String.eqb (EventType event) "lighting" then
     opt_feed hashLightingData (ev_LightingData event)
   else []) ++
  hashOptTransform (ev_Transform event).

Definition CalculateEventHash (event : SpatialEvent) : string :=
  hex_of_bytes (MD5.sum (event_feed event)).

(** The bounding-box loop [for i := 0; i < len(v); i += 3 { if i+2 < len(v) ... }]
    reads the array three floats at a time. *)
Record bbox := {
  minX : spec_float; minY : spec_float; minZ : spec_float;
  maxX : spec_float; maxY : spec_float; maxZ : spec_float
}.

Fixpoint bbox_loop (v : list float64) (b : bbox) : bbox :=
  match v with
  | x :: y :: z :: rest =>
      let x := F64.of_bits x in
      let y := F64.of_bits y in
      let z := F64.of_bits z in
      bbox_loop rest
        {| minX := F64.min (minX b) x; minY := F64.min (minY b) y;
           minZ := F64.min (minZ b) z; maxX := F64.max (maxX b) x;
           maxY := F64.max (maxY b) y; maxZ := F64.max (maxZ b) z |}
  | _ => b
  end.

Definition bbox_of (v : list float64) : bbox :=
  match v with
  | x :: y :: z :: _ =>
      let x := F64.of_bits x in
      let y := F64.of_bits y in
      let z := F64.of_bits z in
      bbox_loop v {| minX := x; minY := y; minZ := z;
                     maxX := x; maxY := y; maxZ := z |}
  | _ =>
      let o := S754_zero false in
      {| minX := o; minY := o; minZ := o; maxX := o; maxY := o; maxZ := o |}
  end.

(** [CalculateGeometrySignature] at a non-nil mesh (its callers pass one). *)
Definition CalculateGeometrySignature (mesh : MeshData) : string :=
  match Vertices mesh with
  | [] => "empty"
  | v =>
      let vertexCount := Z.of_nat (List.length v) / 3 in
      let faceCount := Z.of_nat (List.length (Faces mesh)) in
      let b := bbox_of v in
      let volume :=
        F64.mul (F64.mul (F64.sub (maxX b) (minX b)) (F64.sub (maxY b) (minY b)))
                (F64.sub (maxZ b) (minZ b)) in
      mesh_AnchorID mesh +:+ "_" +:+ decimal vertexCount +:+ "_" +:+
      decimal faceCount +:+ "_" +:+ F64.format_3f volume
  end.

(* ===================================================================== *)
(** * Store ([internal/storage], bolt implementation) *)
(* ===================================================================== *)

(** Go errors: a formatted message, the error of a failed commit, or an
    error wrapped with [fmt.Errorf("ctx: %w", err)]. *)
Inductive error :=
| ErrMsg (msg : string)
| ErrCommit
| ErrWrap (ctx : string) (e : error).

Inductive result (A : Type) :=
| Ok (a : A)
| Error (e : error).
Arguments Ok {A} a.
Arguments Error {A} e.

(** A bolt bucket: key/value pairs in increasing byte order of the keys. *)
Module Bucket.
Section Ops.
Context {V : Type}.

Definition t := list (string * V).

Fixpoint get (k : string) (b : t) : option V :=
  match b with
  | [] => None
  | (k', v) :: r => if String.eqb k k' then Some v else get k r
  end.

Fixpoint put (k : string) (v : V) (b : t) : t :=
  match b with
  | [] => [(k, v)]
  | (k', v') :: r =>
      if String.eqb k k' then (k, v) :: r
      else if String.ltb k k' then (k, v) :: (k', v') :: r
      else (k', v') :: put k v r
  end.

(** [Cursor.Seek]: the pairs from the first key not below [p] on. *)
Fixpoint seek (p : string) (b : t) : t :=
  match b with
  | [] => []
  | (k, v) :: r => if String.ltb k p then seek p r else b
  end.

(** The loop condition
    [k != nil && len(k) > len(prefix) && string(k[:len(prefix)]) == string(prefix)]. *)
Definition under (p k : string) : bool :=
  (String.length p <? String.length k)%nat && String.prefix p k.

Fixpoint while_under (p : string) (b : t) : list V :=
  match b with
  | [] => []
  | (k, v) :: r => if under p k then v :: while_under p r else []
  end.

(** [for k, v := c.Seek(prefix); <condition>; k, v = c.Next()]: the
    values visited, in key order. *)
Definition scan (p : string) (b : t) : list V := while_under p (seek p b).
End Ops.
Arguments t V : clear implicits.
End Bucket.

(** The content of the database file.  The [stats] and [sessions] buckets
    are touched by no function below and are left out.  Values are stored
    as the records themselves: [json.Marshal] followed by [json.Unmarshal]
    gives the record back, and [Marshal] fails on NaN and infinite floats
    only, which no event decoded from JSON contains.  Keys stay within the
    sizes bolt accepts. *)
Record Buckets := {
  stags : Bucket.t Stag;
  anchors : Bucket.t Anchor;
  versions : Bucket.t AnchorVersion
}.

(** A [BoltStorage]: the database, and the outcomes of the commits still to
    come ([true]: the commit fails; none left: every commit succeeds). *)
Record BoltStorage := {
  db : Buckets;
  commit_faults : list bool
}.

(** Code that uses the store: it may change the store and may fail; what it
    committed before failing stays committed. *)
Definition M (A : Type) : Type := BoltStorage -> BoltStorage * result A.

Definition ret {A} (a : A) : M A := fun s => (s, Ok a).
Definition fail {A} (e : error) : M A := fun s => (s, Error e).
Definition bind {A B} (m : M A) (f : A -> M B) : M B :=
  fun s =>
    match m s with
    | (s', Ok a) => f a s'
    | (s', Error e) => (s', Error e)
    end.

Notation "'do' x <- m ; k" := (bind m (fun x => k))
  (at level 10, x name, m at level 100, k at level 200).
Notation "'do' ' p <- m ; k" := (bind m (fun ' p => k))
  (at level 10, p strict pattern, m at level 100, k at level 200).

(** [if err != nil { return fmt.Errorf("ctx: %w", err) }] *)
Definition wrap {A} (ctx : string) (m : M A) : M A :=
  fun s =>
    match m s with
    | (s', Ok a) => (s', Ok a)
    | (s', Error e) => (s', Error (ErrWrap ctx e))
    end.

(** [db.Update(fn)]: one write transaction.  When [fn] returns an error the
    transaction is rolled back; otherwise it is committed, unless the commit
    itself fails. *)
Definition Update {A} (fn : Buckets -> result (Buckets * A)) : M A :=
  fun s =>
    match fn (db s) with
    | Error e => (s, Error e)
    | Ok (b', a) =>
        match commit_faults s with
        | true :: fs => ({| db := db s; commit_faults := fs |}, Error ErrCommit)
        | false :: fs => ({| db := b'; commit_faults := fs |}, Ok a)
        | [] => ({| db := b'; commit_faults := [] |}, Ok a)
        end
    end.

(** [db.View(fn)]: one read transaction. *)
Definition View {A} (fn : Buckets -> result A) : M A :=
  fun s => (s, fn (db s)).

Definition get_or {V} (k : string) (b : Bucket.t V) (msg : string) : result V :=
  match Bucket.get k b with
  | Some v => Ok v
  | None => Error (ErrMsg msg)
  end.

(** ** Version operations *)

Definition version_key (stagID anchorID versionID : string) : string :=
  stagID +:+ ":" +:+ anchorID +:+ ":" +:+ versionID.

Definition version_prefix (stagID anchorID : string) : string :=
  stagID +:+ ":" +:+ anchorID +:+ ":".

Definition AddAnchorVersion (stagID anchorID : string) (version : AnchorVersion)
  : M unit :=
  Update (fun b =>
    let key := version_key stagID anchorID (VersionID version) in
    Ok ({| stags := stags b; anchors := anchors b;
           versions := Bucket.put key version (versions b) |}, tt)).

Definition GetAnchorVersions (stagID anchorID : string) : M (list AnchorVersion) :=
  View (fun b => Ok (Bucket.scan (version_prefix stagID anchorID) (versions b))).

(** The second loop of [GetAnchorVersionsWithPaging]. *)
Fixpoint paging_loop (items : list AnchorVersion) (offset limit current : Z)
    (acc : list AnchorVersion) : list AnchorVersion :=
  match items with
  | [] => acc
  | v :: r =>
      if current <? offset then paging_loop r offset limit (current + 1) acc
      else if limit <=? Z.of_nat (List.length acc) then acc
      else paging_loop r offset limit (current + 1) (acc ++ [v])
  end.

Definition GetAnchorVersionsWithPaging (stagID anchorID : string) (offset limit : Z)
  : M (list AnchorVersion * Z) :=
  View (fun b =>
    let items := Bucket.scan (version_prefix stagID anchorID) (versions b) in
    let total := Z.of_nat (List.length items) in
    Ok (paging_loop items offset limit 0 [], total)).

Definition GetAnchorHistory (stagID anchorID : string) (offset limit : Z)
  : M AnchorHistory :=
  do '(vs, total) <- GetAnchorVersionsWithPaging stagID anchorID offset limit;
  ret {| hist_AnchorID := anchorID; hist_StagID := stagID; hist_Versions := vs;
         Total := total; Offset := offset; Limit := limit |}.

(** ** Anchor operations *)

Definition anchor_key (stagID anchorID : string) : string :=
  stagID +:+ ":" +:+ anchorID.

Definition anchor_prefix (stagID : string) : string := stagID +:+ ":".

Definition anchor_with_times (a : Anchor) (created updated : time) : Anchor :=
  {| anchor_ID := anchor_ID a; anchor_StagID := anchor_StagID a;
     CurrentHash := CurrentHash a; Versions := Versions a;
     anchor_CreatedAt := created; anchor_UpdatedAt := updated;
     LastSessionID := LastSessionID a; LastClientID := LastClientID a;
     LastDeviceID := LastDeviceID a; anchor_Metadata := anchor_Metadata a |}.

Definition anchor_with_versions (a : Anchor) (vs : list AnchorVersion) : Anchor :=
  {| anchor_ID := anchor_ID a; anchor_StagID := anchor_StagID a;
     CurrentHash := CurrentHash a; Versions := vs;
     anchor_CreatedAt := anchor_CreatedAt a; anchor_UpdatedAt := anchor_UpdatedAt a;
     LastSessionID := LastSessionID a; LastClientID := LastClientID a;
     LastDeviceID := LastDeviceID a; anchor_Metadata := anchor_Metadata a |}.

Definition with_anchors (b : Buckets) (a : Bucket.t Anchor) : Buckets :=
  {| stags := stags b; anchors := a; versions := versions b |}.

Definition with_stags (b : Buckets) (s : Bucket.t Stag) : Buckets :=
  {| stags := s; anchors := anchors b; versions := versions b |}.

(** The store methods that assign through their pointer argument
    ([CreatedAt], [UpdatedAt]) return the object as they leave it. *)
Definition CreateAnchor (now : time) (anchor : Anchor) : M Anchor :=
  Update (fun b =>
    let key := anchor_key (anchor_StagID anchor) (anchor_ID anchor) in
    match Bucket.get key (anchors b) with
    | Some _ =>
        Error (ErrMsg ("anchor with ID " +:+ anchor_ID anchor +:+
                       " already exists in stag " +:+ anchor_StagID anchor))
    | None =>
        let anchor' := anchor_with_times anchor now now in
        Ok (with_anchors b (Bucket.put key anchor' (anchors b)), anchor')
    end).

Definition GetAnchor (stagID anchorID : string) : M Anchor :=
  do anchor <- View (fun b =>
    get_or (anchor_key stagID anchorID) (anchors b)
      ("anchor with ID " +:+ anchorID +:+ " not found in stag " +:+ stagID));
  do vs <- wrap ("failed to load versions for anchor " +:+ anchorID)
             (GetAnchorVersions stagID anchorID);
  ret (anchor_with_versions anchor vs).

Definition UpdateAnchor (now : time) (anchor : Anchor) : M Anchor :=
  Update (fun b =>
    let key := anchor_key (anchor_StagID anchor) (anchor_ID anchor) in
    match Bucket.get key (anchors b) with
    | None =>
        Error (ErrMsg ("anchor with ID " +:+ anchor_ID anchor +:+
                       " does not exist in stag " +:+ anchor_StagID anchor))
    | Some _ =>
        let anchor' := anchor_with_times anchor (anchor_CreatedAt anchor) now in
        Ok (with_anchors b (Bucket.put key anchor' (anchors b)), anchor')
    end).

Fixpoint load_versions (stagID : string) (l : list Anchor) : M (list Anchor) :=
  match l with
  | [] => ret []
  | a :: r =>
      do vs <- wrap ("failed to load versions for anchor " +:+ anchor_ID a)
                 (GetAnchorVersions stagID (anchor_ID a));
      do r' <- load_versions stagID r;
      ret (anchor_with_versions a vs :: r')
  end.

Definition ListAnchors (stagID : string) : M (list Anchor) :=
  do l <- View (fun b => Ok (Bucket.scan (anchor_prefix stagID) (anchors b)));
  load_versions stagID l.

(** ** Stag operations *)

Definition stag_with_times (s : Stag) (created updated : time) : Stag :=
  {| stag_ID := stag_ID s; Name := Name s; Description := Description s;
     stag_CreatedAt := created; stag_UpdatedAt := updated;
     Anchors := Anchors s; Stats := Stats s; stag_Metadata := stag_Metadata s |}.

Definition stag_with_anchors (s : Stag) (m : gmap string Anchor) : Stag :=
  {| stag_ID := stag_ID s; Name := Name s; Description := Description s;
     stag_CreatedAt := stag_CreatedAt s; stag_UpdatedAt := stag_UpdatedAt s;
     Anchors := m; Stats := Stats s; stag_Metadata := stag_Metadata s |}.

Definition stag_with_stats (s : Stag) (st : StagStats) (updated : time) : Stag :=
  {| stag_ID := stag_ID s; Name := Name s; Description := Description s;
     stag_CreatedAt := stag_CreatedAt s; stag_UpdatedAt := updated;
     Anchors := Anchors s; Stats := st; stag_Metadata := stag_Metadata s |}.

(** [for _, anchor := range anchors { stag.Anchors[anchor.ID] = anchor }] *)
Definition anchors_by_id (l : list Anchor) : gmap string Anchor :=
  fold_left (fun m a => <[anchor_ID a := a]> m) l ∅.

Definition CreateStag (now : time) (stag : Stag) : M Stag :=
  Update (fun b =>
    match Bucket.get (stag_ID stag) (stags b) with
    | Some _ =>
        Error (ErrMsg ("stag with ID " +:+ stag_ID stag +:+ " already exists"))
    | None =>
        let stag' := stag_with_times stag now now in
        Ok (with_stags b (Bucket.put (stag_ID stag) stag' (stags b)), stag')
    end).

Definition GetStag (stagID : string) : M Stag :=
  do stag <- View (fun b =>
    get_or stagID (stags b) ("stag with ID " +:+ stagID +:+ " not found"));
  do l <- wrap ("failed to load anchors for stag " +:+ stagID) (ListAnchors stagID);
  ret (stag_with_anchors stag (anchors_by_id l)).

Definition UpdateStagStats (now : time) (stagID : string) (st : StagStats) : M unit :=
  Update (fun b =>
    match Bucket.get stagID (stags b) with
    | None => Error (ErrMsg ("stag with ID " +:+ stagID +:+ " not found"))
    | Some stag =>
        Ok (with_stags b (Bucket.put stagID (stag_with_stats stag st now) (stags b)), tt)
    end).

Fixpoint load_anchors (l : list Stag) : M (list Stag) :=
  match l with
  | [] => ret []
  | s :: r =>
      do la <- wrap ("failed to load anchors for stag " +:+ stag_ID s)
                 (ListAnchors (stag_ID s));
      do r' <- load_anchors r;
      ret (stag_with_anchors s (anchors_by_id la) :: r')
  end.

Definition ListStags : M (list Stag) :=
  do l <- View (fun b => Ok (map snd (stags b)));
  load_anchors l.

(* ===================================================================== *)
(** * Versioning engine ([internal/stag/service.go]) *)
(* ===================================================================== *)

(** Logging and the in-memory health table do not touch the store and are
    left out.  The wall clock is read once per event: [now] stands for every
    [time.Now()] of one [processEvent] call. *)

(** [x++] on a Go [int] (64 bits, two's complement). *)
Definition int_incr (x : Z) : Z := (x + 1 + 2 ^ 63) mod 2 ^ 64 - 2 ^ 63.

(** [m, err := f(); if err != nil { m = handler }] *)
Definition orelse {A} (m : M A) (handler : M A) : M A :=
  fun s =>
    match m s with
    | (s', Ok a) => (s', Ok a)
    | (s', Error _) => handler s'
    end.

(** [metadata[key] == nil] *)
Definition is_nil (m : Metadata) (key : string) : bool :=
  match m !! key with
  | None | Some JNull => true
  | Some _ => false
  end.

(** [metadata[key] == s] for a string [s]. *)
Definition is_string (m : Metadata) (key s : string) : bool :=
  match m !! key with
  | Some (JStr s') => String.eqb s' s
  | _ => false
  end.

Definition new_anchor (stag : Stag) (anchorID contentHash : string)
    (event : SpatialEvent) : Anchor :=
  {| anchor_ID := anchorID; anchor_StagID := stag_ID stag;
     CurrentHash := contentHash; Versions := [];
     anchor_CreatedAt := 0; anchor_UpdatedAt := 0;
     LastSessionID := SessionID event; LastClientID := ClientID event;
     LastDeviceID := DeviceID event; anchor_Metadata := ∅ |}.

Definition new_version (now : time) (contentHash changeType : string)
    (event : SpatialEvent) : AnchorVersion :=
  {| VersionID := "v" +:+ decimal now;
     Hash := contentHash;
     ver_Timestamp := Timestamp event;
     ChangeType := changeType;
     ver_Transform := ev_Transform event;
     ver_MeshData := ev_MeshData event;
     ver_PoseData := ev_PoseData event;
     ver_CameraData := ev_CameraData event;
     ver_DepthData := ev_DepthData event;
     ver_PointCloudData := ev_PointCloudData event;
     ver_LightingData := ev_LightingData event;
     ver_EventID := EventID event;
     ver_SessionID := SessionID event;
     ver_ClientID := ClientID event;
     ver_DeviceID := DeviceID event;
     ver_FrameNumber := FrameNumber event;
     ver_Metadata := ev_Metadata event |}.

(** The anchor as updated in memory after the version was added. *)
Definition updated_anchor (anchor : Anchor) (md : Metadata) (contentHash : string)
    (event : SpatialEvent) (version : AnchorVersion) : Anchor :=
  {| anchor_ID := anchor_ID anchor; anchor_StagID := anchor_StagID anchor;
     CurrentHash := contentHash; Versions := Versions anchor ++ [version];
     anchor_CreatedAt := anchor_CreatedAt anchor;
     anchor_UpdatedAt := anchor_UpdatedAt anchor;
     LastSessionID := SessionID event; LastClientID := ClientID event;
     LastDeviceID := DeviceID event; anchor_Metadata := md |}.

(** [if stag.Metadata[key] == nil { stag.Metadata[key] = true; count++ }] *)
Definition track (key : string) (mc : Metadata * Z) : Metadata * Z :=
  let '(m, count) := mc in
  if is_nil m key then (<[key := JBool true]> m, int_incr count) else (m, count).

(** The statistics of the graph after one more version, computed on the
    in-memory graph [stag]. *)
Definition updated_stats (now : time) (stag : Stag) (event : SpatialEvent) : StagStats :=
  let st := Stats stag in
  let '(m1, sessions) := track ("session_" +:+ SessionID event)
                               (stag_Metadata stag, SessionCount st) in
  let '(m2, clients) := track ("client_" +:+ ClientID event) (m1, ClientCount st) in
  let '(m3, devices) := track ("device_" +:+ DeviceID event) (m2, DeviceCount st) in
  {| AnchorCount := AnchorCount st;
     VersionCount := int_incr (VersionCount st);
     EventCount := int_incr (EventCount st);
     SessionCount := sessions; ClientCount := clients; DeviceCount := devices;
     LastActivity := now; FirstActivity := FirstActivity st;
     DataSize := DataSize st |}.

(** The part of [processAnchorEvent] after the dedup decision. *)
Definition append_version (now : time) (stag : Stag) (anchorID : string)
    (event : SpatialEvent) (contentHash : string) (anchor : Anchor)
    (md : Metadata) : M unit :=
  let changeType :=
    match Versions anchor with [] => "create" | _ => "update" end in
  let version := new_version now contentHash changeType event in
  do _ <- wrap "failed to add anchor version"
            (AddAnchorVersion (stag_ID stag) anchorID version);
  do _ <- wrap "failed to update anchor"
            (UpdateAnchor now (updated_anchor anchor md contentHash event version));
  wrap "failed to update stag stats"
    (UpdateStagStats now (stag_ID stag) (updated_stats now stag event)).

Definition processAnchorEvent (now : time) (stag : Stag) (anchorID : string)
    (event : SpatialEvent) : M unit :=
  let contentHash := CalculateEventHash event in
  do anchor <- orelse (GetAnchor (stag_ID stag) anchorID)
                 (wrap "failed to create anchor"
                    (CreateAnchor now (new_anchor stag anchorID contentHash event)));
  if String.eqb (CurrentHash anchor) contentHash then ret tt
  else
    match (if String.eqb (EventType event) "mesh" then ev_MeshData event else None) with
    | Some mesh =>
        let geomSig := CalculateGeometrySignature mesh in
        if is_string (anchor_Metadata anchor) "geom_signature" geomSig then ret tt
        else
          append_version now stag anchorID event contentHash anchor
            (<["geom_signature" := JStr geomSig]> (anchor_Metadata anchor))
    | None =>
        append_version now stag anchorID event contentHash anchor
          (anchor_Metadata anchor)
    end.

Definition missing {A} (o : option A) (msg : string) (k : M unit) : M unit :=
  match o with
  | None => fail (ErrMsg msg)
  | Some _ => k
  end.

Definition processMeshEvent (now : time) (stag : Stag) (event : SpatialEvent) : M unit :=
  match ev_MeshData event with
  | None => fail (ErrMsg "mesh event missing mesh data")
  | Some mesh =>
      let anchorID :=
        if String.eqb (mesh_AnchorID mesh) ""
        then "mesh_" +:+ ClientID event +:+ "_" +:+ decimal (FrameNumber event)
        else mesh_AnchorID mesh in
      processAnchorEvent now stag anchorID event
  end.

Definition processPoseEvent (now : time) (stag : Stag) (event : SpatialEvent) : M unit :=
  missing (ev_PoseData event) "pose event missing pose data"
    (processAnchorEvent now stag ("pose_" +:+ ClientID event) event).

Definition processCameraEvent (now : time) (stag : Stag) (event : SpatialEvent) : M unit :=
  missing (ev_CameraData event) "camera event missing camera data"
    (processAnchorEvent now stag ("camera_" +:+ ClientID event) event).

Definition processDepthEvent (now : time) (stag : Stag) (event : SpatialEvent) : M unit :=
  missing (ev_DepthData event) "depth event missing depth data"
    (processAnchorEvent now stag ("depth_" +:+ ClientID event) event).

Definition processPointCloudEvent (now : time) (stag : Stag) (event : SpatialEvent)
  : M unit :=
  missing (ev_PointCloudData event) "pointCloud event missing point cloud data"
    (processAnchorEvent now stag
       ("pointcloud_" +:+ ClientID event +:+ "_" +:+ decimal (FrameNumber event))
       event).

Definition processLightingEvent (now : time) (stag : Stag) (event : SpatialEvent)
  : M unit :=
  missing (ev_LightingData event) "lighting event missing lighting data"
    (processAnchorEvent now stag ("lighting_" +:+ ClientID event) event).

Definition processGenericEvent (now : time) (stag : Stag) (event : SpatialEvent)
  : M unit :=
  processAnchorEvent now stag
    ("generic_" +:+ ClientID event +:+ "_" +:+ decimal (FrameNumber event)) event.

Definition zero_stats (first : time) : StagStats :=
  {| AnchorCount := 0; VersionCount := 0; EventCount := 0; SessionCount := 0;
     ClientCount := 0; DeviceCount := 0; LastActivity := 0;
     FirstActivity := first; DataSize := 0 |}.

Definition new_stag (now : time) (stagID : string) : Stag :=
  {| stag_ID := stagID;
     Name := "Session " +:+ stagID;
     Description := "Automatically created from session " +:+ stagID;
     stag_CreatedAt := 0; stag_UpdatedAt := 0;
     Anchors := ∅; Stats := zero_stats now; stag_Metadata := ∅ |}.

Definition stag_id_of (event : SpatialEvent) : string :=
  if String.eqb (SessionID event) "" then "default" else SessionID event.

Definition processEvent (now : time) (event : SpatialEvent) : M unit :=
  let stagID := stag_id_of event in
  do stag <- orelse (GetStag stagID)
               (wrap "failed to create stag" (CreateStag now (new_stag now stagID)));
  let ty := EventType event in
  if String.eqb ty "mesh" then processMeshEvent now stag event
  else if String.eqb ty "pose" then processPoseEvent now stag event
  else if String.eqb ty "camera" then processCameraEvent now stag event
  else if String.eqb ty "depth" then processDepthEvent now stag event
  else if String.eqb ty "pointCloud" then processPointCloudEvent now stag event
  else if String.eqb ty "lighting" then processLightingEvent now stag event
  else processGenericEvent now stag event.

(** [processBatch]: every event is processed, failures are counted and do
    not stop the batch.  Each event comes with the clock reading at which it
    is processed.  The result is [(processed, errors)]. *)
Fixpoint processBatch (events : list (time * SpatialEvent)) (s : BoltStorage)
  : BoltStorage * (Z * Z) :=
  match events with
  | [] => (s, (0, 0))
  | (now, event) :: r =>
      let '(s', res) := processEvent now event s in
      let '(s'', (processed, errors)) := processBatch r s' in
      match res with
      | Ok _ => (s'', (processed + 1, errors))
      | Error _ => (s'', (processed, errors + 1))
      end
  end.

(** The store after a sequence of ingested events. *)
Definition ingest (events : list (time * SpatialEvent)) (s : BoltStorage) : BoltStorage :=
  fst (processBatch events s).

Definition empty_store : BoltStorage :=
  {| db := {| stags := []; anchors := []; versions := [] |}; commit_faults := [] |}.

(* ===================================================================== *)
(** * History endpoint ([HandleGetAnchorHistory]) *)
(* ===================================================================== *)

Definition digit_of (c : ascii) : option Z :=
  let n := Z.of_N (N_of_ascii c) in
  if (48 <=? n) && (n <=? 57) then Some (n - 48) else None.

Fixpoint parse_digits (s : string) (acc : Z) : option Z :=
  match s with
  | EmptyString => Some acc
  | String c r =>
      match digit_of c with
      | Some d => parse_digits r (10 * acc + d)
      | None => None
      end
  end.

(** [strconv.Atoi]: an optional sign and decimal digits, within the range of
    [int]; [None] stands for a non-nil error. *)
Definition Atoi (s : string) : option Z :=
  let '(neg, digits) :=
    match s with
    | String "+" r => (false, r)
    | String "-" r => (true, r)
    | _ => (false, s)
    end in
  match digits with
  | EmptyString => None
  | _ =>
      match parse_digits digits 0 with
      | None => None
      | Some n =>
          let v := if neg then - n else n in
          if (- 2 ^ 63 <=? v) && (v <? 2 ^ 63) then Some v else None
      end
  end.

(** The pagination parameters as the handler settles them; [o] and [l] are
    the values of the query parameters, empty when absent. *)
Definition history_offset (o : string) : Z :=
  match (if String.eqb o "" then None else Atoi o) with
  | Some parsed => parsed
  | None => 0
  end.

Definition history_limit (l : string) : Z :=
  match (if String.eqb l "" then None else Atoi l) with
  | Some parsed => if (0 <? parsed) && (parsed <=? 1000) then parsed else 50
  | None => 50
  end.

Inductive http_response :=
| HttpJSON (body : AnchorHistory)
| HttpError (msg : string) (code : Z).

Definition HandleGetAnchorHistory (stagID anchorID o l : string) (s : BoltStorage)
  : http_response :=
  let offset := history_offset o in
  let limit := history_limit l in
  match snd (GetAnchorHistory stagID anchorID offset limit s) with
  | Ok history => HttpJSON history
  | Error _ => HttpError "Failed to get anchor history" 500
  end.

(* ===================================================================== *)
(** * Derived views of the code, and the inputs of the scenarios *)
(* ===================================================================== *)

(** The anchor an event is addressed at: what the [process*Event] methods
    pass to [processAnchorEvent], or the error they return. *)
Definition anchor_id_of (event : SpatialEvent) : result string :=
  let ty := EventType event in
  let need {A} (o : option A) (msg : string) (id : string) : result string :=
    match o with None => Error (ErrMsg msg) | Some _ => Ok id end in
  if String.eqb ty "mesh" then
    match ev_MeshData event with
    | None => Error (ErrMsg "mesh event missing mesh data")
    | Some mesh =>
        Ok (if String.eqb (mesh_AnchorID mesh) ""
            then "mesh_" +:+ ClientID event +:+ "_" +:+ decimal (FrameNumber event)
            else mesh_AnchorID mesh)
    end
  else if String.eqb ty "pose" then
    need (ev_PoseData event) "pose event missing pose data" ("pose_" +:+ ClientID event)
  else if String.eqb ty "camera" then
    need (ev_CameraData event) "camera event missing camera data"
      ("camera_" +:+ ClientID event)
  else if String.eqb ty "depth" then
    need (ev_DepthData event) "depth event missing depth data"
      ("depth_" +:+ ClientID event)
  else if String.eqb ty "pointCloud" then
    need (ev_PointCloudData event) "pointCloud event missing point cloud data"
      ("pointcloud_" +:+ ClientID event +:+ "_" +:+ decimal (FrameNumber event))
  else if String.eqb ty "lighting" then
    need (ev_LightingData event) "lighting event missing lighting data"
      ("lighting_" +:+ ClientID event)
  else Ok ("generic_" +:+ ClientID event +:+ "_" +:+ decimal (FrameNumber event)).

(** A store with empty buckets whose coming commits fail as [faults] says. *)
Definition empty_store_with (faults : list bool) : BoltStorage :=
  {| db := db empty_store; commit_faults := faults |}.

(** Every stored graph has [anchor_count] zero. *)
Definition anchor_counts_zero (b : Buckets) : Prop :=
  Forall (fun kv => AnchorCount (Stats (snd kv)) = 0) (stags b).

Definition counts_zero (s : BoltStorage) : Prop := anchor_counts_zero (db s).

(** What the read methods return, as functions of the buckets. *)
Definition versions_of (b : Buckets) (stagID anchorID : string) : list AnchorVersion :=
  Bucket.scan (version_prefix stagID anchorID) (versions b).

Definition anchors_of (b : Buckets) (stagID : string) : list Anchor :=
  map (fun a => anchor_with_versions a (versions_of b stagID (anchor_ID a)))
      (Bucket.scan (anchor_prefix stagID) (anchors b)).

(** A small program logic for store code: from a store satisfying [P], the
    code ends in a store satisfying [Q a] when it returns [a], and [E] when
    it fails. *)
Definition hoare {A} (P : BoltStorage -> Prop) (m : M A)
    (Q : A -> BoltStorage -> Prop) (E : BoltStorage -> Prop) : Prop :=
  forall s, P s ->
    match m s with
    | (s', Ok a) => Q a s'
    | (s', Error _) => E s'
    end.

(** Observing the value of a result. *)
Definition on_ok {A B} (f : A -> B) (r : result A) : option B :=
  match r with
  | Ok a => Some (f a)
  | Error _ => None
  end.

(** ** Scenario 1 of the specification: create, dedup, update *)

Definition mesh_of (anchorID : string) (v : list float64) : MeshData :=
  {| mesh_AnchorID := anchorID; Vertices := v; Faces := [0; 1; 2];
     mesh_Normals := []; mesh_Colors := []; TextureCoords := [];
     mesh_Transform := None; Classification := ""; mesh_Confidence := f64_0 |}.

Definition mesh_event (session anchorID : string) (frame : Z) (v : list float64)
  : SpatialEvent :=
  {| EventID := "event-" +:+ decimal frame; EventType := "mesh";
     Timestamp := 0; ServerTime := 0;
     SessionID := session; ClientID := "C1"; DeviceID := "D1"; FrameNumber := frame;
     ev_Transform := None; ev_PoseData := None;
     ev_MeshData := Some (mesh_of anchorID v);
     ev_CameraData := None; ev_DepthData := None; ev_PointCloudData := None;
     ev_LightingData := None; ev_Metadata := ∅ |}.

(** vertices=[0,0,0,1,0,0,0,1,0] and vertices=[0,0,0,1,0,0,0,1,1] *)
Definition flat_triangle : list float64 :=
  [f64_0; f64_0; f64_0; f64_1; f64_0; f64_0; f64_0; f64_1; f64_0].
Definition raised_triangle : list float64 :=
  [f64_0; f64_0; f64_0; f64_1; f64_0; f64_0; f64_0; f64_1; f64_1].

Definition event1 : SpatialEvent := mesh_event "S1" "A" 1 flat_triangle.
Definition event2 : SpatialEvent := mesh_event "S1" "A" 2 flat_triangle.
Definition event3 : SpatialEvent := mesh_event "S1" "A" 3 raised_triangle.

(** The three events processed at the clock readings [t1], [t2], [t3]. *)
Definition scenario1 (t1 t2 t3 : time) : BoltStorage :=
  ingest [(t1, event1); (t2, event2); (t3, event3)] empty_store.

(** ** Two graphs whose ids and anchor ids contain the separator *)

Definition event_a_bc : SpatialEvent := mesh_event "a" "b:c" 1 flat_triangle.
Definition event_ab_c : SpatialEvent := mesh_event "a:b" "c" 2 raised_triangle.
Definition event_ab_x : SpatialEvent := mesh_event "a:b" "x" 3 flat_triangle.

(** ** A store whose second commit fails *)

Definition store_after_event1 : BoltStorage := ingest [(1700000000, event1)] empty_store.

Definition store_failing_second_commit : BoltStorage :=
  {| db := db store_after_event1; commit_faults := [false; true] |}.

Definition failed {A} (r : result A) : bool :=
  match r with
  | Ok _ => false
  | Error _ => true
  end.

(** The store after events 1 and 2 of scenario 1: anchor A has one version
    and the signature of the flat triangle. *)
Definition store_after_event2 : BoltStorage :=
  ingest [(1700000000, event1); (1700000001, event2)] empty_store.

(** The graph and the anchor as the engine loads them. *)
Definition loaded_stag (stagID : string) (s : BoltStorage) : Stag :=
  match snd (GetStag stagID s) with
  | Ok g => g
  | Error _ => new_stag 0 stagID
  end.

Definition loaded_anchor (stagID anchorID : string) (s : BoltStorage) : Anchor :=
  match snd (GetAnchor stagID anchorID s) with
  | Ok a => a
  | Error _ => new_anchor (new_stag 0 stagID) anchorID "" event1
  end.

(** The flat triangle again, under a new frame number. *)
Definition event4 : SpatialEvent := mesh_event "S1" "A" 4 flat_triangle.

(** The change type [processAnchorEvent] gives a new version of [anchor]. *)
Definition change_type_for (anchor : Anchor) : string :=
  match Versions anchor with [] => "create" | _ => "update" end.

(** ** Two large meshes that differ in a vertex the hash does not sample *)

(** 1001 vertices, all at the origin except vertex 1 at [(p, p, p)]. *)
Definition big_vertices (p : float64) : list float64 :=
  [f64_0; f64_0; f64_0; p; p; p] ++ repeat f64_0 2997.

Definition big_event_1 : SpatialEvent := mesh_event "S1" "A" 5 (big_vertices f64_1).
Definition big_event_2 : SpatialEvent := mesh_event "S1" "A" 5 (big_vertices f64_2).

Definition store_after_big_event_1 : BoltStorage :=
  ingest [(1700000000, event1); (1700000001, big_event_1)] empty_store.

(** ** History requests and camera frames *)

Definition response_limit (r : http_response) : option Z :=
  match r with
  | HttpJSON h => Some (Limit h)
  | HttpError _ _ => None
  end.

Definition camera_of (image : bytes) : CameraData :=
  {| ImageData := image; cam_Width := 640; cam_Height := 480; Format := "rgb";
     Intrinsics := [f64_1; f64_0; f64_0; f64_0; f64_1; f64_0; f64_0; f64_0; f64_1];
     Distortion := []; cam_Transform := None; cam_Timestamp := 0;
     Exposure := f64_0; ISO := 100; FocalLength := f64_1 |}.

Definition camera_event (frame : Z) (image : bytes) : SpatialEvent :=
  {| EventID := "cam-" +:+ decimal frame; EventType := "camera";
     Timestamp := 0; ServerTime := 0;
     SessionID := "S1"; ClientID := "C1"; DeviceID := "D1"; FrameNumber := frame;
     ev_Transform := None; ev_PoseData := None; ev_MeshData := None;
     ev_CameraData := Some (camera_of image);
     ev_DepthData := None; ev_PointCloudData := None;
     ev_LightingData := None; ev_Metadata := ∅ |}.

(** ** The sampling rule in the words of the specification *)

(** The mesh has [len(vertices)/3] vertices; vertex [k] is the triple at
    floats [3k], [3k+1], [3k+2]. *)
Definition vertex_count (v : list float64) : nat := (List.length v / 3)%nat.

Definition vertex (v : list float64) (k : nat) : list float64 :=
  firstn 3 (skipn (3 * k) v).

(** Every 10th vertex: vertices 0, 10, 20, ... below the vertex count. *)
Definition every_10th_vertex (v : list float64) : list (list float64) :=
  map (fun j => vertex v (10 * j)%nat) (seq 0 ((vertex_count v + 9) / 10)).

Definition every_10th_vertex_feed (v : list float64) : bytes :=
  flat_map all_floats (every_10th_vertex v).



Definition is_byte (b : Z) : Prop := 0 <= b < 256.

(** The vertex part of the feed in the words of the specification: all
    vertices up to 1000 of them, every 10th vertex above. *)
Definition spec_vertex_feed (v : list float64) : bytes :=
  if (vertex_count v <=? 1000)%nat then all_floats v else every_10th_vertex_feed v.



(** An id without the key separator. *)
Definition no_colon (s : string) : Prop :=
  Forall (fun c => c <> ":"%char) (list_ascii_of_string s).

(* ===================================================================== *)
(** * More of the store and of the service *)
(* ===================================================================== *)

(** ** Shape of the buckets *)

(** Keys in strictly increasing byte order, as a bolt bucket keeps them. *)
Definition keys_sorted {V} (b : Bucket.t V) : Prop :=
  StronglySorted (fun x y => String.ltb (fst x) (fst y) = true) b.

(** Every graph is stored under its id and every anchor under the key made
    of its own graph id and id; the three buckets are sorted. *)
Definition store_wf (b : Buckets) : Prop :=
  keys_sorted (stags b) /\ keys_sorted (anchors b) /\ keys_sorted (versions b) /\
  Forall (fun kv => fst kv = stag_ID (snd kv)) (stags b) /\
  Forall (fun kv => fst kv = anchor_key (anchor_StagID (snd kv)) (anchor_ID (snd kv)))
         (anchors b).

(** ** What the engine makes of the counters *)

(** The graph keeps no note of the ids it has seen, and its five counters
    are one number. *)
Definition counters_agree (g : Stag) : Prop :=
  stag_Metadata g = ∅ /\
  EventCount (Stats g) = VersionCount (Stats g) /\
  SessionCount (Stats g) = VersionCount (Stats g) /\
  ClientCount (Stats g) = VersionCount (Stats g) /\
  DeviceCount (Stats g) = VersionCount (Stats g).

(** Does the key end with the separator? *)
Fixpoint ends_with_colon (s : string) : bool :=
  match s with
  | EmptyString => false
  | String c EmptyString => Ascii.eqb c ":"
  | String _ r => ends_with_colon r
  end.

(** The invariant of ingestion: the shape of the buckets, the counters, and
    version keys that end with the digits of a version id. *)
Definition good_store (b : Buckets) : Prop :=
  store_wf b /\ Forall (fun kv => counters_agree (snd kv)) (stags b) /\
  Forall (fun kv => ends_with_colon (fst kv) = false) (versions b).

Definition good (s : BoltStorage) : Prop := good_store (db s).

(** A property of the buckets that no [Put] destroys. *)
Definition put_closed (P : Buckets -> Prop) : Prop :=
  (forall b k v, P b -> P (with_stags b (Bucket.put k v (stags b)))) /\
  (forall b k v, P b -> P (with_anchors b (Bucket.put k v (anchors b)))) /\
  (forall b k v, P b ->
     P {| stags := stags b; anchors := anchors b;
          versions := Bucket.put k v (versions b) |}).





(** ** Sampled arrays *)

(** Every 10th element of an array: the elements at indexes 0, 10, 20, ... *)
Definition every_10th {A} (l : list A) (d : A) : list A :=
  map (fun k => nth (10 * k) l d) (seq 0 ((List.length l + 9) / 10)).

(** An array as the hasher reads it: whole up to 1000 elements, every 10th
    element above. *)
Definition sampled_over_1000 {A} (l : list A) (d : A) : list A :=
  if (List.length l <=? 1000)%nat then l else every_10th l d.

Definition is_hex_digit (c : ascii) : bool :=
  existsb (Ascii.eqb c) (list_ascii_of_string "0123456789abcdef").

(* ===================================================================== *)
(** * Batch processor ([performance.BatchProcessor]) *)
(* ===================================================================== *)

(** The worker goroutine [run] owns the batch; it is modelled by the
    sequence of cases its [select] takes: an event received from the
    queue, a tick of the flush timer, or the cancellation of the context.
    [processor] is the callback given to [NewBatchProcessor]; its error is
    only logged by [flush]. *)
Module BatchProcessor.
Section Worker.
Variable E : Type.
Variable State : Type.
Variable processor : list E -> State -> State.

Record t := { batchSize : Z; batch : list E }.

Inductive select_case :=
| Recv (event : E)
| Tick
| Done.

Definition flush (bp : t) (st : State) : t * State :=
  match batch bp with
  | [] => (bp, st)
  | toProcess => ({| batchSize := batchSize bp; batch := [] |}, processor toProcess st)
  end.

Fixpoint run (cases : list select_case) (bp : t) (st : State) : t * State :=
  match cases with
  | [] => (bp, st)
  | Recv event :: r =>
      let bp' := {| batchSize := batchSize bp; batch := batch bp ++ [event] |} in
      let shouldFlush := batchSize bp' <=? Z.of_nat (List.length (batch bp')) in
      if shouldFlush then let '(bp'', st') := flush bp' st in run r bp'' st'
      else run r bp' st
  | Tick :: r => let '(bp', st') := flush bp st in run r bp' st'
  | Done :: _ => flush bp st
  end.

(** The events the worker takes from the queue before it returns. *)
Fixpoint received (cases : list select_case) : list E :=
  match cases with
  | [] => []
  | Recv event :: r => event :: received r
  | Tick :: r => received r
  | Done :: _ => []
  end.

Fixpoint returned (cases : list select_case) : bool :=
  match cases with
  | [] => false
  | Done :: _ => true
  | _ :: r => returned r
  end.
End Worker.

Arguments batchSize {E} _.
Arguments batch {E} _.
Arguments Recv {E} _.
Arguments Tick {E}.
Arguments Done {E}.
Arguments flush {E State} _ _ _.
Arguments run {E State} _ _ _ _.
Arguments received {E} _.
Arguments returned {E} _.

(** [NewBatchProcessor]: an empty batch.  The constructor allocates the
    queue and the batch with [make], which panics on a negative size: a
    processor exists for [0 <= size] only. *)
Definition NewBatchProcessor {E} (size : Z) : t E := {| batchSize := size; batch := [] |}.

(** A processor that only records the batches it is given. *)
Definition record_calls {E} (toProcess : list E) (calls : list (list E)) : list (list E) :=
  calls ++ [toProcess].

End BatchProcessor.

(** The batch processor of [NewService]: batches of 50 given to
    [processBatch]. *)
Definition service_processor (events : list (time * SpatialEvent)) (s : BoltStorage)
  : BoltStorage := fst (processBatch events s).

Definition service_worker (cases : list (BatchProcessor.select_case (time * SpatialEvent)))
    (s : BoltStorage) : BatchProcessor.t (time * SpatialEvent) * BoltStorage :=
  BatchProcessor.run service_processor cases (BatchProcessor.NewBatchProcessor 50) s.

(** ** References between the buckets *)

(** Every stored anchor names a stored graph, and every stored version is
    kept under the key of a stored anchor followed by its own version id. *)
Definition linked (b : Buckets) : Prop :=
  Forall (fun kv => Bucket.get (anchor_StagID (snd kv)) (stags b) <> None) (anchors b) /\
  Forall (fun kv => exists stagID anchorID,
            fst kv = version_key stagID anchorID (VersionID (snd kv)) /\
            Bucket.get (anchor_key stagID anchorID) (anchors b) <> None)
         (versions b).

(** ** Listings under ids without the separator *)

(** Every stored anchor has a graph id without ':' and a non-empty id. *)
Definition listing_safe (b : Buckets) : Prop :=
  Forall (fun kv => no_colon (anchor_StagID (snd kv)) /\ anchor_ID (snd kv) <> "")
         (anchors b).

(* ===================================================================== *)
(** * Properties *)
(* ===================================================================== *)

(** ** The digest and the number formats on known values *)

Example md5_empty :
  hex_of_bytes (MD5.sum []) = "d41d8cd98f00b204e9800998ecf8427e".
Proof. vm_compute. reflexivity. Qed.

Example md5_abc :
  hex_of_bytes (MD5.sum (bytes_of_string "abc")) = "900150983cd24fb0d6963f7d28e17f72".
Proof. vm_compute. reflexivity. Qed.

Example md5_two_blocks :
  hex_of_bytes (MD5.sum (repeat 97 120)) = "5f61c0ccad4cac44c75ff505e1f1e537".
Proof. vm_compute. reflexivity. Qed.

Example format_examples :
  F64.format_3f (F64.of_bits f64_1) = "1.000" /\
  F64.format_3f (F64.mul (F64.of_bits f64_half) (F64.of_bits f64_half)) = "0.250" /\
  F64.format_3f (F64.sub (F64.of_bits f64_0) (F64.of_bits f64_2)) = "-2.000" /\
  F64.format_3f (F64.of_bits 0x3F50624DD2F1A9FC) = "0.001" /\
  F64.format_3f (F64.of_bits 0x3F40624DD2F1A9FC) = "0.001" /\
  F64.format_3f (F64.of_bits 0x3F3A36E2EB1C432D) = "0.000" /\
  F64.format_3f (F64.of_bits 0x40FE240C9FBE76C9) = "123456.789".
Proof. vm_compute. repeat split. Qed.

(** ** Rules of the program logic *)

Section Hoare.
Context {A B : Type}.
Implicit Types (P E : BoltStorage -> Prop).

Lemma hoare_ret P E (Q : A -> BoltStorage -> Prop) (a : A) :
  (forall s, P s -> Q a s) -> hoare P (ret a) Q E.
Proof. intros H s Hs. simpl. auto. Qed.

Lemma hoare_fail P E (Q : A -> BoltStorage -> Prop) (e : error) :
  (forall s, P s -> E s) -> hoare P (fail e) Q E.
Proof. intros H s Hs. simpl. auto. Qed.

Lemma hoare_bind P E (R : A -> BoltStorage -> Prop)
    (Q : B -> BoltStorage -> Prop) (m : M A) (f : A -> M B) :
  hoare P m R E -> (forall a, hoare (R a) (f a) Q E) ->
  hoare P (bind m f) Q E.
Proof.
  intros Hm Hf s Hs. unfold bind. specialize (Hm s Hs).
  destruct (m s) as [s' [a | e]]; [apply (Hf a s' Hm) | exact Hm].
Qed.

Lemma hoare_wrap P E (Q : A -> BoltStorage -> Prop) (ctx : string) (m : M A) :
  hoare P m Q E -> hoare P (wrap ctx m) Q E.
Proof.
  intros Hm s Hs. unfold wrap. specialize (Hm s Hs).
  destruct (m s) as [s' [a | e]]; exact Hm.
Qed.

Lemma hoare_orelse P E (R : BoltStorage -> Prop)
    (Q : A -> BoltStorage -> Prop) (m h : M A) :
  hoare P m Q R -> hoare R h Q E -> hoare P (orelse m h) Q E.
Proof.
  intros Hm Hh s Hs. unfold orelse. specialize (Hm s Hs).
  destruct (m s) as [s' [a | e]]; [exact Hm | apply (Hh s' Hm)].
Qed.

Lemma hoare_weaken P P' E (Q Q' : A -> BoltStorage -> Prop) (m : M A) :
  hoare P' m Q' E -> (forall s, P s -> P' s) ->
  (forall a s, Q' a s -> Q a s) -> hoare P m Q E.
Proof.
  intros Hm HP HQ s Hs. specialize (Hm s (HP s Hs)).
  destruct (m s) as [s' [a | e]]; auto.
Qed.

(** A write transaction changes the buckets as its closure says, or not at
    all. *)
Lemma hoare_Update (PB : Buckets -> Prop) (QB : A -> Buckets -> Prop)
    (fn : Buckets -> result (Buckets * A)) :
  (forall b b' a, PB b -> fn b = Ok (b', a) -> QB a b') ->
  hoare (fun s => PB (db s)) (Update fn)
        (fun a s => QB a (db s)) (fun s => PB (db s)).
Proof.
  intros H s Hs. unfold Update.
  destruct (fn (db s)) as [[b' a] | e] eqn:Hfn; [| exact Hs].
  destruct (commit_faults s) as [| [|] fs]; simpl; eauto.
Qed.

(** A read transaction leaves the store alone. *)
Lemma hoare_View (PB : Buckets -> Prop) (QB : A -> Buckets -> Prop)
    (fn : Buckets -> result A) :
  (forall b a, PB b -> fn b = Ok a -> QB a b) ->
  hoare (fun s => PB (db s)) (View fn)
        (fun a s => QB a (db s)) (fun s => PB (db s)).
Proof.
  intros H s Hs. unfold View.
  destruct (fn (db s)) as [a | e] eqn:Hfn; simpl; eauto.
Qed.
End Hoare.

(** ** Buckets *)

Section BucketFacts.
Context {V : Type}.
Implicit Types (b : Bucket.t V) (k : string) (v : V).

Lemma get_In k v b : Bucket.get k b = Some v -> In (k, v) b.
Proof.
  induction b as [| [k' v'] r IH]; simpl; [discriminate |].
  destruct (String.eqb k k') eqn:Hk.
  - apply String.eqb_eq in Hk. intros [= ->]. subst. now left.
  - intros H. right. auto.
Qed.

Lemma put_Forall (P : string * V -> Prop) k v b :
  Forall P b -> P (k, v) -> Forall P (Bucket.put k v b).
Proof.
  intros Hb Hkv. induction Hb as [| [k' v'] r Hx Hr IH]; simpl.
  - constructor; [exact Hkv | constructor].
  - destruct (String.eqb k k'); [constructor; assumption |].
    destruct (String.ltb k k').
    + constructor; [exact Hkv |]. constructor; assumption.
    + constructor; assumption.
Qed.

Lemma get_put_same k v b : Bucket.get k (Bucket.put k v b) = Some v.
Proof.
  induction b as [| [k' v'] r IH]; simpl.
  - now rewrite String.eqb_refl.
  - destruct (String.eqb k k') eqn:Hk; simpl.
    + now rewrite String.eqb_refl.
    + destruct (String.ltb k k'); simpl.
      * now rewrite String.eqb_refl.
      * now rewrite Hk.
Qed.

Lemma get_put_other k k' v b :
  k <> k' -> Bucket.get k' (Bucket.put k v b) = Bucket.get k' b.
Proof.
  intros Hne. induction b as [| [k0 v0] r IH]; simpl.
  - destruct (String.eqb k' k) eqn:Hk; [| reflexivity].
    apply String.eqb_eq in Hk. congruence.
  - destruct (String.eqb k k0) eqn:Hk0; simpl.
    + apply String.eqb_eq in Hk0. subst k0.
      destruct (String.eqb k' k) eqn:Hk; [| reflexivity].
      apply String.eqb_eq in Hk. congruence.
    + destruct (String.ltb k k0); simpl.
      * destruct (String.eqb k' k) eqn:Hk; [| reflexivity].
        apply String.eqb_eq in Hk. congruence.
      * now rewrite IH.
Qed.
End BucketFacts.

(** ** Reads leave the store alone *)

Lemma GetAnchorVersions_eq stagID anchorID s :
  GetAnchorVersions stagID anchorID s = (s, Ok (versions_of (db s) stagID anchorID)).
Proof. reflexivity. Qed.

Lemma load_versions_eq stagID l s :
  load_versions stagID l s =
  (s, Ok (map (fun a => anchor_with_versions a (versions_of (db s) stagID (anchor_ID a))) l)).
Proof.
  induction l as [| a r IH]; simpl; [reflexivity |].
  unfold bind, wrap. rewrite GetAnchorVersions_eq, IH. reflexivity.
Qed.

Lemma ListAnchors_eq stagID s :
  ListAnchors stagID s = (s, Ok (anchors_of (db s) stagID)).
Proof.
  unfold ListAnchors, bind, View. simpl. apply load_versions_eq.
Qed.

Lemma GetStag_eq stagID s :
  GetStag stagID s =
  (s, match Bucket.get stagID (stags (db s)) with
      | Some g => Ok (stag_with_anchors g (anchors_by_id (anchors_of (db s) stagID)))
      | None => Error (ErrMsg ("stag with ID " +:+ stagID +:+ " not found"))
      end).
Proof.
  unfold GetStag, bind, View, get_or, wrap.
  destruct (Bucket.get stagID (stags (db s))); [| reflexivity].
  rewrite ListAnchors_eq. reflexivity.
Qed.

Lemma GetAnchor_eq stagID anchorID s :
  GetAnchor stagID anchorID s =
  (s, match Bucket.get (anchor_key stagID anchorID) (anchors (db s)) with
      | Some a => Ok (anchor_with_versions a (versions_of (db s) stagID anchorID))
      | None => Error (ErrMsg ("anchor with ID " +:+ anchorID +:+
                               " not found in stag " +:+ stagID))
      end).
Proof.
  unfold GetAnchor, bind, View, get_or, wrap.
  destruct (Bucket.get (anchor_key stagID anchorID) (anchors (db s))); reflexivity.
Qed.

(** [processEvent] is the graph lookup followed by [processAnchorEvent] at
    the anchor [anchor_id_of] names. *)
Lemma processEvent_dispatch now event :
  processEvent now event =
  bind (orelse (GetStag (stag_id_of event))
          (wrap "failed to create stag"
             (CreateStag now (new_stag now (stag_id_of event)))))
       (fun stag =>
          match anchor_id_of event with
          | Ok anchorID => processAnchorEvent now stag anchorID event
          | Error e => fail e
          end).
Proof.
  unfold processEvent, anchor_id_of. f_equal.
  unfold processMeshEvent, processPoseEvent, processCameraEvent, processDepthEvent,
    processPointCloudEvent, processLightingEvent, processGenericEvent, missing.
  repeat match goal with
         | |- context [String.eqb ?a ?b] => destruct (String.eqb a b)
         | |- context [match ?o with Some _ => _ | None => _ end] => destruct o
         end; reflexivity.
Qed.

(** ** No code path counts anchors *)

Lemma updated_stats_AnchorCount now stag event :
  AnchorCount (updated_stats now stag event) = AnchorCount (Stats stag).
Proof.
  unfold updated_stats, track.
  repeat match goal with |- context [is_nil ?m ?k] => destruct (is_nil m k) end;
    reflexivity.
Qed.

Lemma GetStag_counts stagID :
  hoare counts_zero (GetStag stagID)
        (fun g s => counts_zero s /\ AnchorCount (Stats g) = 0) counts_zero.
Proof.
  intros s Hs. rewrite GetStag_eq.
  destruct (Bucket.get stagID (stags (db s))) as [g |] eqn:Hg; [| exact Hs].
  split; [exact Hs |]. apply get_In in Hg.
  unfold counts_zero, anchor_counts_zero in Hs.
  rewrite List.Forall_forall in Hs. exact (Hs _ Hg).
Qed.

Lemma CreateStag_counts now stagID :
  hoare counts_zero (CreateStag now (new_stag now stagID))
        (fun g s => counts_zero s /\ AnchorCount (Stats g) = 0) counts_zero.
Proof.
  unfold CreateStag.
  apply (hoare_Update anchor_counts_zero
           (fun g b => anchor_counts_zero b /\ AnchorCount (Stats g) = 0)).
  intros b b' g Hb. simpl.
  destruct (Bucket.get stagID (stags b)); [discriminate |].
  intros [= <- <-]. split; [| reflexivity].
  unfold anchor_counts_zero. simpl. apply put_Forall; [exact Hb | reflexivity].
Qed.

Lemma anchor_writes_counts {A} (fn : Buckets -> result (Buckets * A)) :
  (forall b b' a, fn b = Ok (b', a) -> stags b' = stags b) ->
  hoare counts_zero (Update fn) (fun _ s => counts_zero s) counts_zero.
Proof.
  intros H. apply (hoare_Update anchor_counts_zero (fun _ b => anchor_counts_zero b)).
  intros b b' a Hb Hfn. unfold anchor_counts_zero. rewrite (H _ _ _ Hfn). exact Hb.
Qed.

Lemma CreateAnchor_counts now anchor :
  hoare counts_zero (CreateAnchor now anchor) (fun _ s => counts_zero s) counts_zero.
Proof.
  apply anchor_writes_counts. intros b b' a. cbv beta zeta.
  destruct (Bucket.get _ (anchors b)); [discriminate | intros [= <- _]; reflexivity].
Qed.

Lemma UpdateAnchor_counts now anchor :
  hoare counts_zero (UpdateAnchor now anchor) (fun _ s => counts_zero s) counts_zero.
Proof.
  apply anchor_writes_counts. intros b b' a. cbv beta zeta.
  destruct (Bucket.get _ (anchors b)); [intros [= <- _]; reflexivity | discriminate].
Qed.

Lemma AddAnchorVersion_counts stagID anchorID version :
  hoare counts_zero (AddAnchorVersion stagID anchorID version)
        (fun _ s => counts_zero s) counts_zero.
Proof.
  apply anchor_writes_counts. intros b b' a [= <- _]. reflexivity.
Qed.

Lemma UpdateStagStats_counts now stagID st :
  AnchorCount st = 0 ->
  hoare counts_zero (UpdateStagStats now stagID st) (fun _ s => counts_zero s) counts_zero.
Proof.
  intros Hst.
  apply (hoare_Update anchor_counts_zero (fun _ b => anchor_counts_zero b)).
  intros b b' a Hb. cbv beta.
  destruct (Bucket.get stagID (stags b)); [| discriminate].
  intros [= <- _]. unfold anchor_counts_zero. simpl.
  apply put_Forall; [exact Hb | exact Hst].
Qed.

Lemma GetAnchor_counts stagID anchorID :
  hoare counts_zero (GetAnchor stagID anchorID) (fun _ s => counts_zero s) counts_zero.
Proof.
  intros s Hs. rewrite GetAnchor_eq. destruct (Bucket.get _ _); exact Hs.
Qed.

Lemma append_version_counts now stag anchorID event h anchor md :
  AnchorCount (Stats stag) = 0 ->
  hoare counts_zero (append_version now stag anchorID event h anchor md)
        (fun _ s => counts_zero s) counts_zero.
Proof.
  intros Hst. unfold append_version.
  eapply hoare_bind; [apply hoare_wrap, AddAnchorVersion_counts | intros ?; cbv beta].
  eapply hoare_bind; [apply hoare_wrap, UpdateAnchor_counts | intros ?; cbv beta].
  apply hoare_wrap, UpdateStagStats_counts.
  now rewrite updated_stats_AnchorCount.
Qed.

Lemma processAnchorEvent_counts now stag anchorID event :
  AnchorCount (Stats stag) = 0 ->
  hoare counts_zero (processAnchorEvent now stag anchorID event)
        (fun _ s => counts_zero s) counts_zero.
Proof.
  intros Hst. unfold processAnchorEvent.
  eapply hoare_bind.
  - eapply hoare_orelse; [apply GetAnchor_counts |].
    apply hoare_wrap, CreateAnchor_counts.
  - intros anchor. cbv beta.
    destruct (String.eqb (CurrentHash anchor) _); [apply hoare_ret; auto |].
    destruct (if String.eqb (EventType event) "mesh" then ev_MeshData event else None).
    + destruct (is_string _ _ _); [apply hoare_ret; auto |].
      now apply append_version_counts.
    + now apply append_version_counts.
Qed.

Lemma processEvent_counts now event :
  hoare counts_zero (processEvent now event) (fun _ s => counts_zero s) counts_zero.
Proof.
  rewrite processEvent_dispatch.
  eapply hoare_bind.
  - eapply hoare_orelse; [apply GetStag_counts |].
    apply hoare_wrap, CreateStag_counts.
  - intros stag. cbv beta. intros s [Hs Hst]. revert s Hs.
    change (hoare counts_zero
              match anchor_id_of event with
              | Ok anchorID => processAnchorEvent now stag anchorID event
              | Error e => fail e
              end (fun _ s => counts_zero s) counts_zero).
    destruct (anchor_id_of event).
    + now apply processAnchorEvent_counts.
    + apply hoare_fail; auto.
Qed.

Lemma ingest_counts events s :
  counts_zero s -> counts_zero (ingest events s).
Proof.
  unfold ingest. revert s. induction events as [| [now event] r IH]; intros s Hs.
  - exact Hs.
  - simpl. pose proof (processEvent_counts now event s Hs) as H1.
    destruct (processEvent now event s) as [s' res].
    assert (Hs' : counts_zero s') by (destruct res; exact H1).
    specialize (IH s' Hs').
    destruct (processBatch r s') as [s'' [p e]]. simpl in IH.
    destruct res; exact IH.
Qed.

(** C10: after any finite ingestion sequence from an empty store (whatever
    commits fail on the way), every stored graph has [anchor_count] zero,
    in the bucket and as [GetStag] returns it. *)
Theorem C10_anchor_count_never_incremented
    (events : list (time * SpatialEvent)) (faults : list bool) :
  let s := ingest events (empty_store_with faults) in
  (forall k g, In (k, g) (stags (db s)) -> AnchorCount (Stats g) = 0) /\
  (forall stagID s' g, GetStag stagID s = (s', Ok g) -> AnchorCount (Stats g) = 0).
Proof.
  intros s.
  assert (Hs : counts_zero s).
  { apply ingest_counts. constructor. }
  split.
  - intros k g Hin. unfold counts_zero, anchor_counts_zero in Hs.
    rewrite List.Forall_forall in Hs. exact (Hs _ Hin).
  - intros stagID s' g Hg. pose proof (GetStag_counts stagID s Hs) as H.
    rewrite Hg in H. apply H.
Qed.

(** The theorem on the store of scenario 1: graph S1 is stored (with its
    anchor A) and its [anchor_count] is zero. *)
Lemma C10_anchor_count_witness :
  exists g,
    In ("S1", g)
       (stags (db (ingest [(1700000000, event1); (1700000001, event2);
                           (1700000002, event3)] (empty_store_with [])))) /\
    AnchorCount (Stats g) = 0.
Proof.
  assert (H : exists g,
             In ("S1", g)
                (stags (db (ingest [(1700000000, event1); (1700000001, event2);
                                    (1700000002, event3)] (empty_store_with []))))).
  { eexists. vm_compute. left. reflexivity. }
  destruct H as [g Hg]. exists g. split; [exact Hg |].
  exact (proj1 (C10_anchor_count_never_incremented
                  [(1700000000, event1); (1700000001, event2); (1700000002, event3)]
                  []) "S1" g Hg).
Defined.

(** ** Scenario 1 on the code *)

(** C1: the three events of scenario 1, processed in three different
    seconds, leave graph S1 with one anchor A holding two versions
    (create, update) and [version_count] 2; the versions are those of
    events 2 and 3, and [session_count], [client_count] and [device_count]
    are 2, not 1: the ids seen are noted in the in-memory graph only, and
    every event starts from the stored graph. *)
Theorem C1_scenario1_counts_ids_once_per_version :
  let s := scenario1 1700000000 1700000001 1700000002 in
  map fst (stags (db s)) = ["S1"] /\
  map fst (anchors (db s)) = ["S1:A"] /\
  on_ok (fun a => map (fun v => (ChangeType v, ver_FrameNumber v)) (Versions a))
        (snd (GetAnchor "S1" "A" s)) = Some [("create", 2); ("update", 3)] /\
  on_ok (fun g => (VersionCount (Stats g), SessionCount (Stats g),
                   ClientCount (Stats g), DeviceCount (Stats g)))
        (snd (GetStag "S1" s)) = Some (2, 2, 2, 2).
Proof. vm_compute. repeat split. Qed.

(** The first event of a new anchor only creates the anchor. *)
Lemma scenario1_event1_creates_no_version :
  versions (db store_after_event1) = [] /\
  on_ok CurrentHash (snd (GetAnchor "S1" "A" store_after_event1))
    = Some (CalculateEventHash event1).
Proof. vm_compute. repeat split. Qed.

(** C4: version ids are the Unix second of the append.  Events 2 and 3 of
    scenario 1 processed within one second get the same id and storage
    key: the second version replaces the first, one version is left
    although [version_count] says 2. *)
Theorem C4_same_second_version_replaces_previous :
  let s := scenario1 1700000000 1700000001 1700000001 in
  map fst (versions (db s)) = ["S1:A:v1700000001"] /\
  on_ok (fun a => map (fun v => (VersionID v, ChangeType v, ver_FrameNumber v))
                      (Versions a))
        (snd (GetAnchor "S1" "A" s)) = Some [("v1700000001", "update", 3)] /\
  on_ok (fun g => VersionCount (Stats g)) (snd (GetStag "S1" s)) = Some 2.
Proof. vm_compute. repeat split. Qed.

(** Graph ids without the separator keep anchor keys apart. *)
Lemma anchor_key_inj stagID anchorID stagID' anchorID' :
  no_colon stagID -> no_colon stagID' ->
  anchor_key stagID anchorID = anchor_key stagID' anchorID' ->
  stagID = stagID' /\ anchorID = anchorID'.
Proof.
  assert (Hnil : forall a, "" +:+ a = a) by reflexivity.
  assert (Hcons : forall c r a, String c r +:+ a = String c (r +:+ a)) by reflexivity.
  unfold anchor_key, no_colon. revert stagID'.
  induction stagID as [| c r IH]; intros [| c' r'] H1 H2 H;
    repeat first [rewrite Hnil in H | rewrite Hcons in H];
    cbn [list_ascii_of_string] in *.
  - injection H as ->. auto.
  - injection H as <- _. inversion H2; subst. congruence.
  - injection H as -> _. inversion H1; subst. congruence.
  - injection H as -> H. inversion H1; subst. inversion H2; subst.
    destruct (IH r' ltac:(assumption) ltac:(assumption) H) as [-> ->]. auto.
Qed.

(** C9: the keys are plain concatenations around ':'.  Graph a with anchor
    b:c and graph a:b with anchor c share the key a:b:c: after an event for
    the former only, reading the latter returns the former's record; an
    event for (a:b, c) then appends to that record and rewrites its head;
    and listing graph a returns the anchors of graph a:b. *)
Theorem C9_separator_in_ids_aliases_keys :
  anchor_key "a" "b:c" = anchor_key "a:b" "c" /\
  (let s := ingest [(1700000000, event_a_bc)] empty_store in
   on_ok (fun a => (anchor_StagID a, anchor_ID a)) (snd (GetAnchor "a:b" "c" s))
     = Some ("a", "b:c")) /\
  (let s := ingest [(1700000000, event_a_bc); (1700000001, event_ab_c)] empty_store in
   map fst (anchors (db s)) = ["a:b:c"] /\
   on_ok (fun a => (anchor_StagID a, anchor_ID a, LastSessionID a,
                    map ver_SessionID (Versions a)))
         (snd (GetAnchor "a" "b:c" s)) = Some ("a", "b:c", "a:b", ["a:b"])) /\
  (let s := ingest [(1700000000, event_a_bc); (1700000001, event_ab_x)] empty_store in
   on_ok (map (fun a => (anchor_StagID a, anchor_ID a))) (snd (ListAnchors "a" s))
     = Some [("a", "b:c"); ("a:b", "x")]).
Proof. vm_compute. repeat split. Qed.

(** ** The dedup decision on a new anchor and on an unchanged one *)

Lemma anchor_with_versions_hash a vs :
  CurrentHash (anchor_with_versions a vs) = CurrentHash a.
Proof. reflexivity. Qed.

(** An event addressed at an absent anchor creates the anchor with the
    event's hash as [current_hash], and stops at the hash comparison. *)
Lemma processAnchorEvent_new_anchor now stag anchorID event s :
  commit_faults s = [] ->
  Bucket.get (anchor_key (stag_ID stag) anchorID) (anchors (db s)) = None ->
  processAnchorEvent now stag anchorID event s =
  ({| db := with_anchors (db s)
              (Bucket.put (anchor_key (stag_ID stag) anchorID)
                 (anchor_with_times
                    (new_anchor stag anchorID (CalculateEventHash event) event) now now)
                 (anchors (db s)));
      commit_faults := [] |}, Ok tt).
Proof.
  intros Hf Hget. unfold processAnchorEvent, bind, orelse.
  rewrite GetAnchor_eq, Hget. unfold wrap, CreateAnchor, Update.
  cbn [anchor_StagID anchor_ID new_anchor]. rewrite Hget, Hf.
  cbn [CurrentHash anchor_with_times new_anchor].
  rewrite String.eqb_refl. reflexivity.
Qed.

(** An event whose hash is the anchor's [current_hash] changes nothing. *)
Lemma processAnchorEvent_same_hash now stag anchorID event s a :
  Bucket.get (anchor_key (stag_ID stag) anchorID) (anchors (db s)) = Some a ->
  CurrentHash a = CalculateEventHash event ->
  processAnchorEvent now stag anchorID event s = (s, Ok tt).
Proof.
  intros Hget Hh. unfold processAnchorEvent, bind, orelse.
  rewrite GetAnchor_eq, Hget. rewrite anchor_with_versions_hash, Hh.
  rewrite String.eqb_refl. reflexivity.
Qed.

Lemma stag_with_anchors_ID g m : stag_ID (stag_with_anchors g m) = stag_ID g.
Proof. reflexivity. Qed.

(** What the graph lookup of [processEvent] leaves: the graph [stagID] is
    stored afterwards, nothing else changed. *)
Lemma get_or_create_stag now stagID s :
  commit_faults s = [] ->
  (forall g, Bucket.get stagID (stags (db s)) = Some g -> stag_ID g = stagID) ->
  exists s1 stag,
    orelse (GetStag stagID)
      (wrap "failed to create stag" (CreateStag now (new_stag now stagID))) s
      = (s1, Ok stag) /\
    stag_ID stag = stagID /\
    commit_faults s1 = [] /\
    anchors (db s1) = anchors (db s) /\
    versions (db s1) = versions (db s) /\
    (exists g, Bucket.get stagID (stags (db s1)) = Some g /\ stag_ID g = stagID).
Proof.
  intros Hf Hid. unfold orelse. rewrite GetStag_eq.
  destruct (Bucket.get stagID (stags (db s))) as [g |] eqn:Hg.
  - eexists s, _. split; [reflexivity |]. rewrite stag_with_anchors_ID.
    repeat split; eauto.
  - unfold wrap, CreateStag, Update. cbn [stag_ID new_stag]. rewrite Hg, Hf.
    eexists _, _. split; [reflexivity |]. cbn.
    repeat split. eexists. split; [apply get_put_same | reflexivity].
Qed.

Lemma processEvent_new_anchor now event anchorID s :
  commit_faults s = [] ->
  (forall g, Bucket.get (stag_id_of event) (stags (db s)) = Some g ->
             stag_ID g = stag_id_of event) ->
  anchor_id_of event = Ok anchorID ->
  Bucket.get (anchor_key (stag_id_of event) anchorID) (anchors (db s)) = None ->
  exists s1,
    processEvent now event s = (s1, Ok tt) /\
    commit_faults s1 = [] /\
    versions (db s1) = versions (db s) /\
    (exists a, Bucket.get (anchor_key (stag_id_of event) anchorID) (anchors (db s1))
               = Some a /\ CurrentHash a = CalculateEventHash event) /\
    (exists g, Bucket.get (stag_id_of event) (stags (db s1)) = Some g /\
               stag_ID g = stag_id_of event).
Proof.
  intros Hf Hid Haid Hget.
  destruct (get_or_create_stag now (stag_id_of event) s Hf Hid)
    as (s1 & stag & Hstag & Hsid & Hf1 & Ha1 & Hv1 & Hg1).
  rewrite processEvent_dispatch. unfold bind. rewrite Hstag, Haid.
  rewrite processAnchorEvent_new_anchor; rewrite ?Hsid, ?Ha1; auto.
  eexists. split; [reflexivity |]. cbn. repeat split; auto.
  eexists. split; [apply get_put_same | reflexivity].
Qed.

Lemma processEvent_same_hash now event anchorID s g a :
  anchor_id_of event = Ok anchorID ->
  Bucket.get (stag_id_of event) (stags (db s)) = Some g ->
  stag_ID g = stag_id_of event ->
  Bucket.get (anchor_key (stag_id_of event) anchorID) (anchors (db s)) = Some a ->
  CurrentHash a = CalculateEventHash event ->
  processEvent now event s = (s, Ok tt).
Proof.
  intros Haid Hg Hgid Hget Hh.
  rewrite processEvent_dispatch. unfold bind, orelse.
  rewrite GetStag_eq, Hg, Haid.
  apply processAnchorEvent_same_hash with (a := a); [| exact Hh].
  rewrite stag_with_anchors_ID, Hgid. exact Hget.
Qed.

(** An event without its payload appends nothing. *)
Lemma processEvent_invalid now event e s :
  anchor_id_of event = Error e ->
  versions (db (fst (processEvent now event s))) = versions (db s).
Proof.
  intros Haid. rewrite processEvent_dispatch. unfold bind, orelse.
  rewrite GetStag_eq.
  destruct (Bucket.get (stag_id_of event) (stags (db s))).
  - rewrite Haid. reflexivity.
  - unfold wrap, CreateStag, Update. cbn [stag_ID new_stag].
    destruct (Bucket.get (stag_id_of event) (stags (db s))); [reflexivity |].
    destruct (commit_faults s) as [| [|] fs]; cbn; rewrite ?Haid; reflexivity.
Qed.

(** C2: from the empty store, ingesting any event twice leaves no version
    at all: for a valid event the first ingestion creates the anchor with
    [current_hash] already set to the event's hash and appends nothing, and
    the second finds the hash unchanged. *)
Theorem C2_new_anchor_same_event_twice_no_version (t1 t2 : time) (event : SpatialEvent) :
  let s := ingest [(t1, event); (t2, event)] empty_store in
  versions (db s) = [] /\
  forall anchorID, anchor_id_of event = Ok anchorID ->
    snd (processBatch [(t1, event); (t2, event)] empty_store) = (2, 0) /\
    on_ok (fun a => (CurrentHash a, Versions a))
          (snd (GetAnchor (stag_id_of event) anchorID s))
      = Some (CalculateEventHash event, []).
Proof.
  cbv zeta. unfold ingest. cbn [processBatch].
  destruct (anchor_id_of event) as [anchorID | e] eqn:Haid.
  - destruct (processEvent_new_anchor t1 event anchorID empty_store)
      as (s1 & H1 & Hf1 & Hv1 & (a & Ha & Hh) & (g & Hg & Hgid));
      [reflexivity | discriminate | exact Haid | reflexivity |].
    rewrite H1.
    rewrite (processEvent_same_hash t2 event anchorID s1 g a Haid Hg Hgid Ha Hh).
    cbv beta iota. unfold fst, snd.
    split; [exact Hv1 |]. intros ? [= <-]. split; [reflexivity |].
    rewrite GetAnchor_eq, Ha. cbn. unfold versions_of. rewrite Hv1, Hh. reflexivity.
  - pose proof (processEvent_invalid t1 event e empty_store Haid) as H1.
    destruct (processEvent t1 event empty_store) as [s1 r1]. cbn in H1.
    pose proof (processEvent_invalid t2 event e s1 Haid) as H2.
    destruct (processEvent t2 event s1) as [s2 r2]. cbn in H2.
    split; [| discriminate].
    destruct r1, r2; cbn; congruence.
Qed.

(** The theorem at event 1 of scenario 1. *)
Lemma C2_new_anchor_witness :
  snd (processBatch [(1700000000, event1); (1700000001, event1)] empty_store) = (2, 0) /\
  on_ok (fun a => (CurrentHash a, Versions a))
        (snd (GetAnchor "S1" "A"
                (ingest [(1700000000, event1); (1700000001, event1)] empty_store)))
    = Some (CalculateEventHash event1, []).
Proof.
  exact (proj2 (C2_new_anchor_same_event_twice_no_version 1700000000 1700000001 event1)
               "A" eq_refl).
Defined.

(** ** Store calls commit one by one *)

Lemma Update_error_unchanged {A} (fn : Buckets -> result (Buckets * A)) s s' e :
  Update fn s = (s', Error e) -> db s' = db s.
Proof.
  unfold Update. destruct (fn (db s)) as [[b' a] | e0].
  - destruct (commit_faults s) as [| [|] fs]; intros [= <-]; reflexivity.
  - intros [= <-]. reflexivity.
Qed.

Lemma AddAnchorVersion_ok stagID anchorID version s s1 :
  AddAnchorVersion stagID anchorID version s = (s1, Ok tt) ->
  db s1 = {| stags := stags (db s); anchors := anchors (db s);
             versions := Bucket.put (version_key stagID anchorID (VersionID version))
                           version (versions (db s)) |}.
Proof.
  unfold AddAnchorVersion, Update.
  destruct (commit_faults s) as [| [|] fs]; intros [= <-]; reflexivity.
Qed.

(** C3, counterexample: event 2 of scenario 1 arrives when anchor A exists;
    the commit of the version append succeeds and the commit of the anchor
    update fails.  The event fails, yet its version record is in the store,
    next to the anchor head of event 1. *)
Lemma C3_counterexample_version_outlives_failed_event :
  let r := processEvent 1700000001 event2 store_failing_second_commit in
  failed (snd r) = true /\
  map fst (versions (db store_failing_second_commit)) = [] /\
  map fst (versions (db (fst r))) = ["S1:A:v1700000001"] /\
  anchors (db (fst r)) = anchors (db store_failing_second_commit) /\
  stags (db (fst r)) = stags (db store_failing_second_commit).
Proof. vm_compute. repeat split. Qed.

(** Without any failing commit: an event with a new session id and no
    payload fails, and the graph it made [processEvent] create stays. *)
Lemma failed_event_leaves_created_graph :
  let e := mesh_event "S2" "A" 1 flat_triangle in
  let bad := {| EventID := EventID e; EventType := EventType e;
                Timestamp := Timestamp e; ServerTime := ServerTime e;
                SessionID := SessionID e; ClientID := ClientID e;
                DeviceID := DeviceID e; FrameNumber := FrameNumber e;
                ev_Transform := None; ev_PoseData := None; ev_MeshData := None;
                ev_CameraData := None; ev_DepthData := None;
                ev_PointCloudData := None; ev_LightingData := None;
                ev_Metadata := ev_Metadata e |} in
  let r := processEvent 1700000000 bad empty_store in
  snd r = Error (ErrMsg "mesh event missing mesh data") /\
  map fst (stags (db (fst r))) = ["S2"].
Proof. vm_compute. repeat split. Qed.

(** C3 as amended: each store call is a write transaction of its own.  Once
    the version append has committed, a failure of the anchor update leaves
    the version record stored with anchors and graphs as before; a failure
    of the stats update leaves the version record and the updated anchor
    head stored.  In both cases the event fails. *)
Theorem C3_store_calls_commit_one_by_one
    (now : time) (stag : Stag) (anchorID : string) (event : SpatialEvent)
    (h : string) (anchor : Anchor) (md : Metadata) (s s1 : BoltStorage) :
  let version := new_version now h (change_type_for anchor) event in
  let key := version_key (stag_ID stag) anchorID (VersionID version) in
  AddAnchorVersion (stag_ID stag) anchorID version s = (s1, Ok tt) ->
  versions (db s1) = Bucket.put key version (versions (db s)) /\
  (forall s2 e,
     UpdateAnchor now (updated_anchor anchor md h event version) s1 = (s2, Error e) ->
     append_version now stag anchorID event h anchor md s
       = (s2, Error (ErrWrap "failed to update anchor" e)) /\
     versions (db s2) = Bucket.put key version (versions (db s)) /\
     anchors (db s2) = anchors (db s) /\ stags (db s2) = stags (db s)) /\
  (forall s2 a' s3 e,
     UpdateAnchor now (updated_anchor anchor md h event version) s1 = (s2, Ok a') ->
     UpdateStagStats now (stag_ID stag) (updated_stats now stag event) s2
       = (s3, Error e) ->
     append_version now stag anchorID event h anchor md s
       = (s3, Error (ErrWrap "failed to update stag stats" e)) /\
     db s3 = db s2 /\
     versions (db s3) = Bucket.put key version (versions (db s))).
Proof.
  intros version key H1. pose proof (AddAnchorVersion_ok _ _ _ _ _ H1) as Hdb1.
  split; [rewrite Hdb1; reflexivity |]. split.
  - intros s2 e H2. pose proof (Update_error_unchanged _ _ _ _ H2) as Hdb2.
    split.
    + unfold append_version, bind, wrap. fold (change_type_for anchor).
      fold version. rewrite H1, H2. reflexivity.
    + rewrite Hdb2, Hdb1. repeat split.
  - intros s2 a' s3 e H2 H3. pose proof (Update_error_unchanged _ _ _ _ H3) as Hdb3.
    split; [| split; [exact Hdb3 |]].
    + unfold append_version, bind, wrap. fold (change_type_for anchor).
      fold version. rewrite H1, H2, H3. reflexivity.
    + rewrite Hdb3. revert H2. unfold UpdateAnchor, Update. cbv beta zeta.
      destruct (Bucket.get _ (anchors (db s1))); [| discriminate].
      destruct (commit_faults s1) as [| [|] fs]; intros [= <- _]; cbn;
        rewrite Hdb1; reflexivity.
Qed.

(** The theorem at event 2 of scenario 1, the anchor update failing. *)
Lemma C3_store_calls_witness :
  let s := store_failing_second_commit in
  let stag := loaded_stag "S1" s in
  let anchor := loaded_anchor "S1" "A" s in
  let h := CalculateEventHash event2 in
  let md := <["geom_signature" := JStr "A_3_3_0.000"]> (anchor_Metadata anchor) in
  failed (snd (append_version 1700000001 stag "A" event2 h anchor md s)) = true /\
  map fst (versions (db (fst (append_version 1700000001 stag "A" event2 h anchor md s))))
    = ["S1:A:v1700000001"].
Proof.
  intros s stag anchor h md.
  pose (version := new_version 1700000001 h (change_type_for anchor) event2).
  pose (r1 := AddAnchorVersion (stag_ID stag) "A" version s).
  pose (r2 := UpdateAnchor 1700000001 (updated_anchor anchor md h event2 version) (fst r1)).
  assert (H1 : AddAnchorVersion (stag_ID stag) "A" version s = (fst r1, Ok tt))
    by (vm_compute; reflexivity).
  assert (H2 : UpdateAnchor 1700000001 (updated_anchor anchor md h event2 version) (fst r1)
               = (fst r2, Error ErrCommit))
    by (vm_compute; reflexivity).
  destruct (C3_store_calls_commit_one_by_one 1700000001 stag "A" event2 h anchor md
              s (fst r1) H1) as (_ & Hfail & _).
  destruct (Hfail (fst r2) ErrCommit H2) as (Hrun & Hv & _).
  rewrite Hrun. split; [reflexivity |]. cbn [fst]. rewrite Hv.
  vm_compute. reflexivity.
Defined.

(** ** The geometric signature filter *)

(** With every commit succeeding, the three store calls after the dedup
    decision write the version, the anchor head and the graph stats. *)
Lemma append_version_ok now stag anchorID event h anchor md s g0 a0 :
  commit_faults s = [] ->
  Bucket.get (stag_ID stag) (stags (db s)) = Some g0 ->
  Bucket.get (anchor_key (anchor_StagID anchor) (anchor_ID anchor)) (anchors (db s))
    = Some a0 ->
  let version := new_version now h (change_type_for anchor) event in
  append_version now stag anchorID event h anchor md s =
  ({| db :=
        {| stags := Bucket.put (stag_ID stag)
                      (stag_with_stats g0 (updated_stats now stag event) now)
                      (stags (db s));
           anchors := Bucket.put (anchor_key (anchor_StagID anchor) (anchor_ID anchor))
                        (anchor_with_times (updated_anchor anchor md h event version)
                           (anchor_CreatedAt anchor) now)
                        (anchors (db s));
           versions := Bucket.put (version_key (stag_ID stag) anchorID (VersionID version))
                         version (versions (db s)) |};
      commit_faults := [] |}, Ok tt).
Proof.
  intros Hf Hg Ha version.
  unfold append_version, bind, wrap. fold (change_type_for anchor). fold version.
  unfold AddAnchorVersion, Update at 1. rewrite Hf.
  unfold UpdateAnchor, Update at 1.
  cbn [db commit_faults anchors stags versions anchor_StagID anchor_ID updated_anchor
       anchor_CreatedAt with_anchors].
  rewrite Ha.
  unfold UpdateStagStats, Update.
  cbn [db commit_faults anchors stags versions with_stags with_anchors].
  rewrite Hg. reflexivity.
Qed.

(** C5 as amended: a mesh event addressed at an existing anchor.  When the
    anchor's stored signature equals the signature of the event's mesh, the
    store is left as it is, whatever the content hash: no version, same
    signature.  When the signatures differ and the event's hash is not the
    anchor's [current_hash], then (the commits succeeding) the anchor is
    stored with the new signature and the event's hash, and the version is
    stored under the anchor. *)
Theorem C5_geometric_signature_filter
    (now : time) (stag : Stag) (anchorID : string) (event : SpatialEvent)
    (mesh : MeshData) (s : BoltStorage) (a0 : Anchor) :
  EventType event = "mesh" ->
  ev_MeshData event = Some mesh ->
  Bucket.get (anchor_key (stag_ID stag) anchorID) (anchors (db s)) = Some a0 ->
  let geomSig := CalculateGeometrySignature mesh in
  let h := CalculateEventHash event in
  (is_string (anchor_Metadata a0) "geom_signature" geomSig = true ->
   processAnchorEvent now stag anchorID event s = (s, Ok tt)) /\
  (is_string (anchor_Metadata a0) "geom_signature" geomSig = false ->
   CurrentHash a0 <> h ->
   commit_faults s = [] ->
   anchor_key (anchor_StagID a0) (anchor_ID a0) = anchor_key (stag_ID stag) anchorID ->
   (exists g0, Bucket.get (stag_ID stag) (stags (db s)) = Some g0) ->
   exists s' a' v,
     processAnchorEvent now stag anchorID event s = (s', Ok tt) /\
     Bucket.get (anchor_key (stag_ID stag) anchorID) (anchors (db s')) = Some a' /\
     anchor_Metadata a' !! "geom_signature" = Some (JStr geomSig) /\
     CurrentHash a' = h /\
     Bucket.get (version_key (stag_ID stag) anchorID ("v" +:+ decimal now))
                (versions (db s')) = Some v /\
     Hash v = h /\ ver_MeshData v = Some mesh).
Proof.
  intros Hty Hmesh Hget geomSig h. split.
  - intros Hsig. unfold processAnchorEvent, bind, orelse.
    rewrite GetAnchor_eq, Hget. rewrite anchor_with_versions_hash.
    destruct (String.eqb (CurrentHash a0) (CalculateEventHash event));
      [reflexivity |].
    rewrite Hty, Hmesh. cbn [String.eqb Ascii.eqb Bool.eqb].
    cbn [anchor_Metadata anchor_with_versions]. fold geomSig. rewrite Hsig.
    reflexivity.
  - intros Hsig Hh Hf Hkey [g0 Hg].
    unfold processAnchorEvent, bind, orelse.
    rewrite GetAnchor_eq, Hget. rewrite anchor_with_versions_hash.
    apply String.eqb_neq in Hh. fold h. rewrite Hh.
    rewrite Hty, Hmesh. cbn [String.eqb Ascii.eqb Bool.eqb].
    cbn [anchor_Metadata anchor_with_versions]. fold geomSig. rewrite Hsig.
    erewrite append_version_ok; [| exact Hf | exact Hg | cbn; rewrite Hkey; exact Hget].
    cbn [anchor_StagID anchor_ID anchor_with_versions]. rewrite Hkey.
    eexists _, _, _. split; [reflexivity |]. cbn [db anchors versions].
    split; [apply get_put_same |].
    split; [cbn; apply lookup_insert_eq |].
    split; [reflexivity |].
    split; [apply get_put_same |].
    split; [reflexivity | cbn; exact Hmesh].
Qed.

(** The theorem on the store left by events 1 and 2 of scenario 1: event 4
    (the flat triangle under a new frame number) is filtered, event 3 (the
    raised triangle) is appended and its signature stored. *)
Lemma C5_geometric_signature_filter_witness :
  let s := store_after_event2 in
  let stag := loaded_stag "S1" s in
  (CalculateEventHash event4 <> CalculateEventHash event2 /\
   processAnchorEvent 1700000002 stag "A" event4 s = (s, Ok tt)) /\
  (exists s' a',
     processAnchorEvent 1700000002 stag "A" event3 s = (s', Ok tt) /\
     Bucket.get "S1:A" (anchors (db s')) = Some a' /\
     anchor_Metadata a' !! "geom_signature" = Some (JStr "A_3_3_1.000") /\
     map fst (versions (db s')) = ["S1:A:v1700000001"; "S1:A:v1700000002"]).
Proof.
  intros s stag.
  pose (a0 := match Bucket.get "S1:A" (anchors (db s)) with
              | Some a => a
              | None => loaded_anchor "S1" "A" s
              end).
  assert (Hget : Bucket.get (anchor_key (stag_ID stag) "A") (anchors (db s)) = Some a0)
    by (vm_compute; reflexivity).
  split.
  - split; [vm_compute; discriminate |].
    apply (proj1 (C5_geometric_signature_filter 1700000002 stag "A" event4
                    (mesh_of "A" flat_triangle) s a0 eq_refl eq_refl Hget)).
    vm_compute. reflexivity.
  - destruct (proj2 (C5_geometric_signature_filter 1700000002 stag "A" event3
                       (mesh_of "A" raised_triangle) s a0 eq_refl eq_refl Hget))
      as (s' & a' & v & Hrun & Ha' & Hsig & _).
    + vm_compute. reflexivity.
    + vm_compute. discriminate.
    + reflexivity.
    + reflexivity.
    + eexists. vm_compute. reflexivity.
    + exists s', a'. split; [exact Hrun |]. split; [exact Ha' |].
      split; [rewrite Hsig; vm_compute; reflexivity |].
      assert (Hs' : s' = fst (processAnchorEvent 1700000002 stag "A" event3 s))
        by (rewrite Hrun; reflexivity).
      rewrite Hs'. vm_compute. reflexivity.
Defined.

(** C5, counterexample: anchor A holds the signature of a 1001-vertex mesh
    whose vertex 1 is (1,1,1).  The same mesh with vertex 1 at (2,2,2) has
    another signature but, vertex 1 not being sampled, the same content
    hash: the event stops at the hash comparison, nothing is appended and
    the stored signature stays. *)
Lemma C5_counterexample_equal_hash_wins_over_new_signature :
  let s := store_after_big_event_1 in
  on_ok (fun a => (anchor_Metadata a !! "geom_signature",
                   String.eqb (CurrentHash a) (CalculateEventHash big_event_2)))
        (snd (GetAnchor "S1" "A" s))
    = Some (Some (JStr "A_1001_3_1.000"), true) /\
  option_map CalculateGeometrySignature (ev_MeshData big_event_2) = Some "A_1001_3_8.000" /\
  processEvent 1700000002 big_event_2 s = (s, Ok tt).
Proof. vm_compute. repeat split. Qed.

(** ** The limit of a history request *)

Lemma Atoi_empty : Atoi "" = None.
Proof. reflexivity. Qed.

Lemma history_limit_cases l :
  history_limit l =
  match Atoi l with
  | Some n => if (0 <? n) && (n <=? 1000) then n else 50
  | None => 50
  end.
Proof.
  unfold history_limit. destruct (String.eqb l "") eqn:Hl; [| reflexivity].
  apply String.eqb_eq in Hl. subst l. reflexivity.
Qed.

Lemma paging_loop_length items offset limit current acc :
  (Z.of_nat (List.length (paging_loop items offset limit current acc))
   <= Z.max (Z.of_nat (List.length acc)) limit).
Proof.
  revert current acc. induction items as [| v r IH]; intros current acc; simpl.
  - lia.
  - destruct (current <? offset); [apply IH |].
    destruct (limit <=? Z.of_nat (List.length acc)) eqn:Hl; [lia |].
    apply Z.leb_gt in Hl. specialize (IH (current + 1) (acc ++ [v])).
    rewrite length_app in IH. simpl in IH. lia.
Qed.

(** C6, counterexample: on the store of scenario 1 a request with limit=0
    is served, with the default limit 50 and both versions, and a request
    with limit=2000 is served with limit 50, not 1000. *)
Lemma C6_counterexample_limit_out_of_range_gets_default :
  let s := scenario1 1700000000 1700000001 1700000002 in
  response_limit (HandleGetAnchorHistory "S1" "A" "" "0" s) = Some 50 /\
  (match HandleGetAnchorHistory "S1" "A" "" "0" s with
   | HttpJSON h => List.length (hist_Versions h)
   | HttpError _ _ => O
   end = 2%nat) /\
  response_limit (HandleGetAnchorHistory "S1" "A" "" "2000" s) = Some 50.
Proof. vm_compute. repeat split. Qed.

(** C6 as amended: the request is always served.  The limit is the value
    of the parameter when that is an integer in (0, 1000], and the default
    50 in every other case (absent, not a number, zero, negative, above
    1000); the limit used is in (0, 1000] and bounds the versions returned. *)
Theorem C6_history_limit_defaults_to_50
    (stagID anchorID o l : string) (s : BoltStorage) :
  exists h,
    HandleGetAnchorHistory stagID anchorID o l s = HttpJSON h /\
    0 < Limit h <= 1000 /\
    Z.of_nat (List.length (hist_Versions h)) <= Limit h /\
    (l = "" -> Limit h = 50) /\
    (Atoi l = None -> Limit h = 50) /\
    (forall n, Atoi l = Some n -> 0 < n <= 1000 -> Limit h = n) /\
    (forall n, Atoi l = Some n -> n <= 0 \/ 1000 < n -> Limit h = 50).
Proof.
  unfold HandleGetAnchorHistory, GetAnchorHistory, GetAnchorVersionsWithPaging,
    bind, View, ret. cbn [snd hist_Versions Limit].
  eexists. split; [reflexivity |]. cbn [Limit hist_Versions].
  assert (Hrange : 0 < history_limit l <= 1000).
  { rewrite history_limit_cases. destruct (Atoi l) as [n |]; [| lia].
    destruct ((0 <? n) && (n <=? 1000)) eqn:Hn; [| lia].
    apply andb_true_iff in Hn. lia. }
  split; [exact Hrange |]. split.
  - pose proof (paging_loop_length
                  (Bucket.scan (version_prefix stagID anchorID) (versions (db s)))
                  (history_offset o) (history_limit l) 0 []) as H.
    simpl List.length in H. lia.
  - rewrite history_limit_cases. repeat split.
    + intros ->. reflexivity.
    + intros ->. reflexivity.
    + intros n -> Hn.
      replace ((0 <? n) && (n <=? 1000)) with true; [reflexivity |].
      symmetry. apply andb_true_iff. lia.
    + intros n -> Hn.
      replace ((0 <? n) && (n <=? 1000)) with false; [reflexivity |].
      symmetry. apply andb_false_iff. lia.
Qed.

(** The theorem at limit=25, limit=0, limit=2000 and limit=abc. *)
Lemma C6_history_limit_witness :
  let s := scenario1 1700000000 1700000001 1700000002 in
  response_limit (HandleGetAnchorHistory "S1" "A" "0" "25" s) = Some 25 /\
  response_limit (HandleGetAnchorHistory "S1" "A" "0" "0" s) = Some 50 /\
  response_limit (HandleGetAnchorHistory "S1" "A" "0" "2000" s) = Some 50 /\
  response_limit (HandleGetAnchorHistory "S1" "A" "0" "abc" s) = Some 50.
Proof.
  intros s. split; [| split; [| split]].
  - destruct (C6_history_limit_defaults_to_50 "S1" "A" "0" "25" s)
      as (h & -> & _ & _ & _ & _ & Hin & _).
    cbn [response_limit]. f_equal. apply Hin; [reflexivity | lia].
  - destruct (C6_history_limit_defaults_to_50 "S1" "A" "0" "0" s)
      as (h & -> & _ & _ & _ & _ & _ & Hout).
    cbn [response_limit]. f_equal. apply (Hout 0); [reflexivity | lia].
  - destruct (C6_history_limit_defaults_to_50 "S1" "A" "0" "2000" s)
      as (h & -> & _ & _ & _ & _ & _ & Hout).
    cbn [response_limit]. f_equal. apply (Hout 2000); [reflexivity | lia].
  - destruct (C6_history_limit_defaults_to_50 "S1" "A" "0" "abc" s)
      as (h & -> & _ & _ & _ & Hnone & _).
    cbn [response_limit]. f_equal. apply Hnone. reflexivity.
Defined.

(** ** Camera frames *)

(** C8, counterexample: two camera events with the same width, height,
    format, image length and intrinsics, and frame numbers 1 and 2, have
    different content hashes. *)
Lemma C8_counterexample_frame_number_is_hashed :
  let e1 := camera_event 1 [1; 2; 3] in
  let e2 := camera_event 2 [1; 2; 3] in
  option_map (fun c => (cam_Width c, cam_Height c, Format c,
                        List.length (ImageData c), Intrinsics c)) (ev_CameraData e1)
  = option_map (fun c => (cam_Width c, cam_Height c, Format c,
                          List.length (ImageData c), Intrinsics c)) (ev_CameraData e2) /\
  CalculateEventHash e1 <> CalculateEventHash e2.
Proof. split; [reflexivity | vm_compute; discriminate]. Qed.

(** C8 as amended: two camera events with the same frame number and
    transforms, and the same width, height, format, image length and
    intrinsics, have the same content hash, whatever the image bytes. *)
Theorem C8_camera_hash_ignores_image_bytes
    (e1 e2 : SpatialEvent) (c1 c2 : CameraData) :
  EventType e1 = "camera" -> EventType e2 = "camera" ->
  ev_CameraData e1 = Some c1 -> ev_CameraData e2 = Some c2 ->
  FrameNumber e1 = FrameNumber e2 ->
  ev_Transform e1 = ev_Transform e2 ->
  cam_Transform c1 = cam_Transform c2 ->
  cam_Width c1 = cam_Width c2 -> cam_Height c1 = cam_Height c2 ->
  Format c1 = Format c2 ->
  List.length (ImageData c1) = List.length (ImageData c2) ->
  Intrinsics c1 = Intrinsics c2 ->
  CalculateEventHash e1 = CalculateEventHash e2.
Proof.
  intros Ht1 Ht2 Hc1 Hc2 Hf Htr Hct Hw Hh Hfmt Hlen Hin.
  unfold CalculateEventHash, event_feed.
  rewrite Ht1, Ht2, Hc1, Hc2, Hf, Htr. cbn [String.eqb Ascii.eqb Bool.eqb opt_feed].
  unfold hashCameraData. rewrite Hct, Hw, Hh, Hfmt, Hlen, Hin. reflexivity.
Qed.

(** The theorem at two frames of three bytes each. *)
Lemma C8_camera_hash_witness :
  camera_event 7 [1; 2; 3] <> camera_event 7 [9; 8; 7] /\
  CalculateEventHash (camera_event 7 [1; 2; 3])
  = CalculateEventHash (camera_event 7 [9; 8; 7]).
Proof.
  split; [intros H; discriminate H |].
  apply (C8_camera_hash_ignores_image_bytes
           (camera_event 7 [1; 2; 3]) (camera_event 7 [9; 8; 7])
           (camera_of [1; 2; 3]) (camera_of [9; 8; 7])); reflexivity.
Defined.

(** ** Little-endian bytes and hex digits are injective *)

Lemma le_bytes_length n x : List.length (le_bytes n x) = n.
Proof. revert x. induction n as [| n IH]; intros x; simpl; [| rewrite IH]; reflexivity. Qed.

Lemma le_bytes_is_byte n x : Forall is_byte (le_bytes n x).
Proof.
  revert x. induction n as [| n IH]; intros x; simpl; constructor; [| apply IH].
  unfold is_byte. apply Z.mod_pos_bound. lia.
Qed.





Lemma md5_sum_is_byte msg : Forall is_byte (MD5.sum msg).
Proof.
  unfold MD5.sum. repeat (apply Forall_app; split); apply le_bytes_is_byte.
Qed.


(** ** The sampling loop *)

Lemma flat_map_shift {A} (f : nat -> list A) a m :
  flat_map f (seq (S a) m) = flat_map (fun k => f (S k)) (seq a m).
Proof.
  revert a. induction m as [| m IH]; intros a; simpl; [reflexivity |].
  now rewrite IH.
Qed.

Lemma flat_map_all_nil {A B} (f : A -> list B) l :
  (forall x, In x l -> f x = []) -> flat_map f l = [].
Proof.
  induction l as [| x r IH]; intros H; simpl; [reflexivity |].
  rewrite (H x) by now left. apply IH. intros y Hy. apply H. now right.
Qed.

Lemma flat_map_of_map {A B C} (f : B -> list C) (g : A -> B) l :
  flat_map f (map g l) = flat_map (fun x => f (g x)) l.
Proof. induction l as [| x r IH]; simpl; [reflexivity | now rewrite IH]. Qed.

Lemma flat_map_agree {A B} (f g : A -> list B) l :
  (forall x, In x l -> f x = g x) -> flat_map f l = flat_map g l.
Proof.
  induction l as [| x r IH]; intros H; simpl; [reflexivity |].
  rewrite (H x) by now left. f_equal. apply IH. intros y Hy. apply H. now right.
Qed.

(** With enough fuel the loop is the concatenation of [emit] at
    [i], [i + step], ... while below [n]. *)
Lemma sample_loop_unroll emit step n m :
  forall fuel i,
    (m <= fuel)%nat ->
    (forall k, (k < m)%nat -> (i + step * k < n)%nat) ->
    ~ (i + step * m < n)%nat ->
    sample_loop emit step n fuel i
    = flat_map (fun k => emit (i + step * k)%nat) (seq 0 m).
Proof.
  induction m as [| m IH]; intros fuel i Hfuel Hin Hout.
  - simpl. destruct fuel; simpl; [reflexivity |].
    destruct (i <? n)%nat eqn:Hi; [| reflexivity].
    apply Nat.ltb_lt in Hi. exfalso. apply Hout. lia.
  - destruct fuel as [| fuel]; [lia |]. simpl.
    assert (Hi : (i <? n)%nat = true).
    { apply Nat.ltb_lt. specialize (Hin O). lia. }
    rewrite Hi. rewrite Nat.mul_0_r, Nat.add_0_r. f_equal.
    rewrite flat_map_shift.
    rewrite (IH fuel (i + step)%nat); [| lia | |].
    + apply flat_map_ext. intros k. f_equal. lia.
    + intros k Hk. specialize (Hin (S k)). lia.
    + intros H. apply Hout. lia.
Qed.


Lemma firstn3_skipn (v : list float64) :
  forall i, (i + 2 < List.length v)%nat ->
    firstn 3 (skipn i v) = [nth i v 0; nth (i + 1) v 0; nth (i + 2) v 0].
Proof.
  induction v as [| x r IH]; intros i Hi; [simpl in Hi; lia |].
  destruct i as [| i].
  - destruct r as [| y [| z r']]; simpl in Hi; try lia. reflexivity.
  - simpl in Hi. cbn [skipn Nat.add nth]. apply IH. lia.
Qed.

Lemma emit_triple_vertex v j :
  (10 * j < vertex_count v)%nat ->
  emit_triple v (30 * j) = all_floats (vertex v (10 * j)).
Proof.
  unfold vertex_count, emit_triple, vertex. intros Hj.
  assert (Hlt : (30 * j + 2 < List.length v)%nat).
  { pose proof (Nat.div_mod_eq (List.length v) 3).
    pose proof (Nat.mod_upper_bound (List.length v) 3). lia. }
  apply Nat.ltb_lt in Hlt as Hb. rewrite Hb.
  replace (3 * (10 * j))%nat with (30 * j)%nat by lia.
  rewrite firstn3_skipn by exact Hlt. unfold all_floats. cbn [flat_map].
  rewrite ?app_nil_r. reflexivity.
Qed.

Lemma emit_triple_beyond v j :
  ~ (10 * j < vertex_count v)%nat -> emit_triple v (30 * j) = [].
Proof.
  unfold vertex_count, emit_triple. intros Hj.
  destruct (30 * j + 2 <? List.length v)%nat eqn:Hb; [| reflexivity].
  apply Nat.ltb_lt in Hb. exfalso. apply Hj.
  pose proof (Nat.div_mod_eq (List.length v) 3).
  pose proof (Nat.mod_upper_bound (List.length v) 3). lia.
Qed.

(** The loop over the float array, 30 floats at a time, feeds every 10th
    vertex and nothing else. *)
Lemma sampled_triples_every_10th v :
  sampled_triples v = every_10th_vertex_feed v.
Proof.
  unfold sampled_triples, every_10th_vertex_feed, every_10th_vertex.
  set (n := List.length v).
  set (m := ((vertex_count v + 9) / 10)%nat).
  set (M := ((n + 29) / 30)%nat).
  assert (HM : (30 * M < n + 30 /\ n <= 30 * M)%nat).
  { unfold M. pose proof (Nat.div_mod_eq (n + 29) 30).
    pose proof (Nat.mod_upper_bound (n + 29) 30). lia. }
  assert (Hm : (10 * m < vertex_count v + 10 /\ vertex_count v <= 10 * m)%nat).
  { unfold m. pose proof (Nat.div_mod_eq (vertex_count v + 9) 10).
    pose proof (Nat.mod_upper_bound (vertex_count v + 9) 10). lia. }
  assert (Hc : (3 * vertex_count v <= n)%nat).
  { unfold vertex_count. fold n. pose proof (Nat.div_mod_eq n 3). lia. }
  rewrite (sample_loop_unroll _ 30 n M); [| lia | intros k Hk; lia | lia].
  cbn [Nat.add].
  assert (HmM : (m <= M)%nat) by lia.
  replace M with (m + (M - m))%nat by lia.
  rewrite seq_app, flat_map_app.
  rewrite (flat_map_all_nil _ (seq (0 + m) (M - m))).
  - rewrite app_nil_r, flat_map_of_map.
    apply flat_map_agree. intros j Hj. apply in_seq in Hj.
    apply emit_triple_vertex. lia.
  - intros j Hj. apply in_seq in Hj. apply emit_triple_beyond. lia.
Qed.

(** ** Mesh vertices in the content hash *)

Lemma vertex_count_Z v : Z.of_nat (vertex_count v) = Z.of_nat (List.length v) / 3.
Proof. unfold vertex_count. now rewrite Nat2Z.inj_div. Qed.

(** The code's vertex feed is the specification's. *)
Lemma mesh_vertex_feed_spec v : mesh_vertex_feed v = spec_vertex_feed v.
Proof.
  unfold mesh_vertex_feed, spec_vertex_feed. rewrite <- vertex_count_Z.
  destruct (1000 <? Z.of_nat (vertex_count v)) eqn:Hc.
  - apply Z.ltb_lt in Hc.
    replace (vertex_count v <=? 1000)%nat with false
      by (symmetry; apply Nat.leb_gt; lia).
    apply sampled_triples_every_10th.
  - apply Z.ltb_ge in Hc.
    replace (vertex_count v <=? 1000)%nat with true
      by (symmetry; apply Nat.leb_le; lia).
    reflexivity.
Qed.









(** ** Order of keys *)

Lemma ltb_lt a b : String.ltb a b = true <-> String_as_OT.lt a b.
Proof.
  unfold String.ltb. rewrite <- String_as_OT.cmp_lt. unfold String_as_OT.cmp.
  destruct (String.compare a b); split; congruence.
Qed.

Lemma ltb_trans a b c :
  String.ltb a b = true -> String.ltb b c = true -> String.ltb a c = true.
Proof. rewrite !ltb_lt. apply String_as_OT.lt_trans. Qed.

Lemma compare_refl a : String.compare a a = Eq.
Proof.
  induction a as [| c a IH]; simpl; [reflexivity |].
  unfold Ascii.compare. now rewrite N.compare_refl.
Qed.

Lemma ltb_irrefl a : String.ltb a a = false.
Proof. unfold String.ltb. now rewrite compare_refl. Qed.

Lemma ltb_asym a b : String.ltb a b = true -> String.ltb b a = false.
Proof.
  unfold String.ltb. rewrite (String.compare_antisym b a).
  destruct (String.compare a b); simpl; congruence.
Qed.

Lemma not_ltb_neq_gt a b :
  String.ltb a b = false -> a <> b -> String.ltb b a = true.
Proof.
  unfold String.ltb. intros H Hne. rewrite (String.compare_antisym b a).
  destruct (String.compare a b) eqn:Hc; simpl; try congruence.
  apply String.compare_eq_iff in Hc. contradiction.
Qed.

(** A key that extends [p] is not below [p]. *)
Lemma prefix_not_below p k : String.prefix p k = true -> String.ltb k p = false.
Proof.
  unfold String.ltb. revert k. induction p as [| a p IH]; intros k H.
  - destruct k; reflexivity.
  - destruct k as [| b k]; [discriminate |]. simpl in H.
    destruct (ascii_dec a b) as [<- |]; [| discriminate]. simpl.
    replace (Ascii.compare a a) with Eq
      by (symmetry; unfold Ascii.compare; apply N.compare_refl).
    specialize (IH k H). destruct (String.compare k p); congruence.
Qed.

(** Beyond a key that is above [p] without extending it, no key extends
    [p]. *)
Lemma prefix_not_beyond p k k' :
  String.ltb p k = true -> String.prefix p k = false ->
  String.ltb k k' = true -> String.prefix p k' = false.
Proof.
  unfold String.ltb. revert k k'. induction p as [| a p IH]; intros k k' Hpk Hpre Hkk'.
  - destruct k; discriminate.
  - destruct k as [| b k]; [discriminate |].
    destruct k' as [| c k']; [reflexivity |].
    simpl in *. unfold Ascii.compare in *.
    destruct (ascii_dec a c) as [<- | Hac]; [| reflexivity].
    destruct (N.compare (N_of_ascii a) (N_of_ascii b)) eqn:Hab; try discriminate.
    + apply N.compare_eq_iff, (f_equal ascii_of_N) in Hab.
      rewrite !ascii_N_embedding in Hab. subst b.
      destruct (ascii_dec a a) as [_ | Hn]; [| contradiction].
      rewrite N.compare_refl in Hkk'. apply (IH k k'); assumption.
    + destruct (N.compare (N_of_ascii b) (N_of_ascii a)) eqn:Hba; try discriminate.
      * apply N.compare_eq_iff in Hba. rewrite Hba, N.compare_refl in Hab.
        discriminate.
      * exfalso. apply N.compare_lt_iff in Hab. apply N.compare_lt_iff in Hba.
        exact (N.lt_asymm _ _ Hab Hba).
Qed.

Lemma prefix_length p k :
  String.prefix p k = true -> (String.length p <= String.length k)%nat.
Proof.
  revert k. induction p as [| a p IH]; intros k H; simpl; [lia |].
  destruct k as [| b k]; [discriminate |]. simpl in H.
  destruct (ascii_dec a b); [| discriminate]. specialize (IH k H). simpl. lia.
Qed.

Lemma prefix_same_length p k :
  String.prefix p k = true -> String.length p = String.length k -> k = p.
Proof.
  revert k. induction p as [| a p IH]; intros k H Hl.
  - destruct k; [reflexivity | discriminate].
  - destruct k as [| b k]; [discriminate |]. simpl in H, Hl.
    destruct (ascii_dec a b) as [<- |]; [| discriminate].
    f_equal. apply IH; [exact H | lia].
Qed.

(** For a key other than [p], the cursor condition is "extends [p]". *)
Lemma under_prefix p k : k <> p -> Bucket.under p k = String.prefix p k.
Proof.
  intros Hne. unfold Bucket.under.
  destruct (String.prefix p k) eqn:Hp; [| apply andb_false_r].
  rewrite andb_true_r. apply Nat.ltb_lt.
  pose proof (prefix_length p k Hp).
  destruct (Nat.eq_dec (String.length p) (String.length k)) as [E |]; [| lia].
  exfalso. apply Hne. now apply prefix_same_length.
Qed.

Lemma under_self p : Bucket.under p p = false.
Proof. unfold Bucket.under. now rewrite Nat.ltb_irrefl. Qed.

Lemma prefix_append p x : String.prefix p (p +:+ x) = true.
Proof.
  induction p as [| a p IH]; simpl; [destruct x; reflexivity |].
  destruct (ascii_dec a a); [exact IH | contradiction].
Qed.

(** ** Sorted buckets and prefix scans *)

Section SortedBuckets.
Context {V : Type}.
Implicit Types (b : Bucket.t V) (k p : string) (v : V).

Lemma put_sorted k v b : keys_sorted b -> keys_sorted (Bucket.put k v b).
Proof.
  unfold keys_sorted. intros Hb.
  induction Hb as [| [k0 v0] r Hr IH Hall]; simpl.
  - constructor; constructor.
  - destruct (String.eqb k k0) eqn:Hk.
    + apply String.eqb_eq in Hk. subst k0. constructor; assumption.
    + apply String.eqb_neq in Hk. destruct (String.ltb k k0) eqn:Hlt.
      * constructor; [constructor; assumption |].
        constructor; [exact Hlt |].
        eapply List.Forall_impl; [| exact Hall]. intros [k1 v1] H1. simpl in *.
        eapply ltb_trans; eassumption.
      * constructor; [exact IH |].
        apply put_Forall; [exact Hall |]. simpl.
        apply not_ltb_neq_gt; assumption.
Qed.

Lemma filter_none (f : string * V -> bool) b :
  Forall (fun kv => f kv = false) b -> List.filter f b = [].
Proof.
  induction 1 as [| x r Hx Hr IH]; simpl; [reflexivity |]. now rewrite Hx.
Qed.

Lemma while_under_filter p b :
  keys_sorted b -> Forall (fun kv => String.ltb p (fst kv) = true) b ->
  Bucket.while_under p b
  = map snd (List.filter (fun kv => String.prefix p (fst kv)) b).
Proof.
  unfold keys_sorted. intros Hb.
  induction Hb as [| [k v] r Hr IH Hall]; intros Hp; simpl; [reflexivity |].
  inversion Hp as [| ? ? Hk Hp']; subst. simpl in Hk.
  assert (Hne : k <> p).
  { intros ->. rewrite ltb_irrefl in Hk. discriminate. }
  rewrite (under_prefix p k Hne).
  destruct (String.prefix p k) eqn:Hpre; simpl.
  - now rewrite IH.
  - rewrite filter_none; [reflexivity |].
    eapply List.Forall_impl; [| exact Hall]. intros [k1 v1] H1. simpl in *.
    eapply prefix_not_beyond; eassumption.
Qed.

(** The scan of a sorted bucket returns the values whose key extends the
    prefix, in key order, as long as the prefix itself is not a key. *)
Lemma scan_filter p b :
  keys_sorted b -> Bucket.get p b = None ->
  Bucket.scan p b = map snd (List.filter (fun kv => String.prefix p (fst kv)) b).
Proof.
  unfold keys_sorted, Bucket.scan. intros Hb.
  induction Hb as [| [k v] r Hr IH Hall]; intros Hget; [reflexivity |].
  simpl in Hget. destruct (String.eqb p k) eqn:Hpk; [discriminate |].
  apply String.eqb_neq in Hpk. cbn [Bucket.seek].
  destruct (String.ltb k p) eqn:Hlt.
  - assert (Hpre : String.prefix p k = false).
    { destruct (String.prefix p k) eqn:E; [| reflexivity].
      apply prefix_not_below in E. congruence. }
    cbn [List.filter fst]. rewrite Hpre. now apply IH.
  - assert (Hgt : String.ltb p k = true) by (apply not_ltb_neq_gt; congruence).
    apply while_under_filter.
    + constructor; assumption.
    + constructor; [exact Hgt |].
      eapply List.Forall_impl; [| exact Hall]. intros [k1 v1] H1. simpl in *.
      eapply ltb_trans; eassumption.
Qed.

(** When the prefix itself is a key, the cursor stops on it at once. *)
Lemma scan_prefix_is_key p b v :
  keys_sorted b -> Bucket.get p b = Some v -> Bucket.scan p b = [].
Proof.
  unfold keys_sorted, Bucket.scan. intros Hb.
  induction Hb as [| [k v0] r Hr IH Hall]; intros Hget; simpl in *; [discriminate |].
  destruct (String.eqb p k) eqn:Hpk.
  - apply String.eqb_eq in Hpk. subst k. rewrite ltb_irrefl. simpl.
    now rewrite under_self.
  - pose proof (get_In _ _ _ Hget) as Hin. rewrite List.Forall_forall in Hall.
    specialize (Hall _ Hin). simpl in Hall. rewrite Hall. now apply IH.
Qed.

Lemma get_Some_In_sorted k v b :
  keys_sorted b -> In (k, v) b -> Bucket.get k b = Some v.
Proof.
  unfold keys_sorted. intros Hb.
  induction Hb as [| [k0 v0] r Hr IH Hall]; intros Hin; simpl in *; [contradiction |].
  destruct Hin as [[= -> ->] | Hin]; [now rewrite String.eqb_refl |].
  destruct (String.eqb k k0) eqn:Hk; [| now apply IH].
  apply String.eqb_eq in Hk. subst k0. rewrite List.Forall_forall in Hall.
  specialize (Hall _ Hin). simpl in Hall. rewrite ltb_irrefl in Hall. discriminate.
Qed.

Lemma put_In k v b k' v' :
  In (k', v') (Bucket.put k v b) -> (k' = k /\ v' = v) \/ In (k', v') b.
Proof.
  induction b as [| [k0 v0] r IH]; simpl.
  - intros [[= <- <-] | []]. now left.
  - destruct (String.eqb k k0) eqn:Hk.
    + intros [[= <- <-] | H]; [now left | right; now right].
    + destruct (String.ltb k k0).
      * intros [[= <- <-] | H]; [now left | now right].
      * intros [H | H]; [right; now left |].
        destruct (IH H) as [? | ?]; [now left | right; now right].
Qed.

Lemma In_put k v b : In (k, v) (Bucket.put k v b).
Proof. apply get_In, get_put_same. Qed.
End SortedBuckets.

(** ** What every ingestion keeps *)

Lemma append_nil a : "" +:+ a = a.
Proof. reflexivity. Qed.

Lemma append_cons c r a : String c r +:+ a = String c (r +:+ a).
Proof. reflexivity. Qed.

Lemma ends_with_colon_append a b :
  b <> "" -> ends_with_colon (a +:+ b) = ends_with_colon b.
Proof.
  intros Hb. induction a as [| c a IH]; [reflexivity |].
  rewrite append_cons. cbn [ends_with_colon]. rewrite IH.
  destruct (a +:+ b) eqn:E; [| reflexivity].
  destruct a; [now rewrite append_nil in E | rewrite append_cons in E; discriminate].
Qed.

Lemma append_not_empty a b : b <> "" -> a +:+ b <> "".
Proof.
  intros Hb. destruct a; [now rewrite append_nil |].
  rewrite append_cons. discriminate.
Qed.

Ltac not_empty :=
  first [discriminate
        | rewrite append_cons; discriminate
        | apply append_not_empty; not_empty].

Lemma no_colon_ends s :
  Forall (fun c => c <> ":"%char) (list_ascii_of_string s) -> ends_with_colon s = false.
Proof.
  induction s as [| c r IH]; intros H; [reflexivity |].
  cbn [list_ascii_of_string] in H. inversion H as [| ? ? Hc Hr]; subst.
  cbn [ends_with_colon]. destruct r; [| now apply IH].
  now apply Ascii.eqb_neq.
Qed.

Lemma digits_no_colon d :
  Forall (fun c => c <> ":"%char) (list_ascii_of_string (NilEmpty.string_of_uint d)).
Proof.
  induction d; cbn; constructor; try assumption; discriminate.
Qed.

Lemma decimal_no_colon n :
  Forall (fun c => c <> ":"%char) (list_ascii_of_string (decimal n)).
Proof.
  unfold decimal, NilZero.string_of_int, NilZero.string_of_uint.
  destruct (Z.to_int n) as [d | d]; destruct d;
    repeat (cbn; constructor; try discriminate); apply digits_no_colon.
Qed.

(** A version key ends with the digits of its version id. *)
Lemma version_key_no_colon stagID anchorID now h ct event :
  ends_with_colon (version_key stagID anchorID (VersionID (new_version now h ct event)))
  = false.
Proof.
  unfold version_key. cbn [VersionID new_version].
  rewrite (ends_with_colon_append stagID) by not_empty.
  rewrite (ends_with_colon_append ":") by not_empty.
  rewrite (ends_with_colon_append anchorID) by not_empty.
  rewrite (ends_with_colon_append ":") by not_empty.
  apply no_colon_ends. rewrite append_cons, append_nil. cbn [list_ascii_of_string].
  constructor; [intros E; discriminate E | apply decimal_no_colon].
Qed.

Lemma version_prefix_colon stagID anchorID :
  ends_with_colon (version_prefix stagID anchorID) = true.
Proof.
  unfold version_prefix.
  rewrite (ends_with_colon_append stagID) by not_empty.
  rewrite (ends_with_colon_append ":") by not_empty.
  now rewrite (ends_with_colon_append anchorID) by not_empty.
Qed.

Lemma get_none_by_key {V} (f : string -> bool) p (b : Bucket.t V) :
  Forall (fun kv => f (fst kv) = false) b -> f p = true -> Bucket.get p b = None.
Proof.
  intros Hb Hp. induction Hb as [| [k v] r Hk Hr IH]; simpl; [reflexivity |].
  destruct (String.eqb p k) eqn:E; [| exact IH].
  apply String.eqb_eq in E. subst k. simpl in Hk. congruence.
Qed.

Lemma track_fresh key (m : Metadata) count :
  m !! key = None -> track key (m, count) = (<[key := JBool true]> m, int_incr count).
Proof. intros H. unfold track, is_nil. now rewrite H. Qed.

Lemma updated_stats_agree now stag event :
  counters_agree stag ->
  let st := updated_stats now stag event in
  EventCount st = VersionCount st /\ SessionCount st = VersionCount st /\
  ClientCount st = VersionCount st /\ DeviceCount st = VersionCount st.
Proof.
  intros (Hm & He & Hs & Hc & Hd). unfold updated_stats. rewrite Hm.
  rewrite track_fresh by apply lookup_empty.
  rewrite track_fresh.
  2:{ rewrite lookup_insert_ne; [apply lookup_empty |]. intros H. discriminate H. }
  rewrite track_fresh.
  2:{ rewrite !lookup_insert_ne; [apply lookup_empty | |]; intros H; discriminate H. }
  cbn. rewrite He, Hs, Hc, Hd. auto.
Qed.

Lemma good_get_stag b stagID g :
  good_store b -> Bucket.get stagID (stags b) = Some g ->
  counters_agree g /\ stag_ID g = stagID.
Proof.
  intros [(_ & _ & _ & Hkey & _) [Hc _]] Hg. apply get_In in Hg.
  rewrite List.Forall_forall in Hkey, Hc. split; [exact (Hc _ Hg) |].
  symmetry. exact (Hkey _ Hg).
Qed.

Lemma good_get_anchor b key a :
  good_store b -> Bucket.get key (anchors b) = Some a ->
  anchor_key (anchor_StagID a) (anchor_ID a) = key.
Proof.
  intros [(_ & _ & _ & _ & Hkey) _] Ha. apply get_In in Ha.
  rewrite List.Forall_forall in Hkey. symmetry. exact (Hkey _ Ha).
Qed.

Lemma good_put_stag b g :
  good_store b -> counters_agree g ->
  good_store (with_stags b (Bucket.put (stag_ID g) g (stags b))).
Proof.
  intros [(Hs & Ha & Hv & Hks & Hka) [Hc Hvk]] Hg.
  split; [split; [| split; [| split; [| split]]] | split]; cbn; try assumption.
  - now apply put_sorted.
  - apply put_Forall; [assumption | reflexivity].
  - apply put_Forall; assumption.
Qed.

Lemma good_put_anchor b a :
  good_store b ->
  good_store (with_anchors b
                (Bucket.put (anchor_key (anchor_StagID a) (anchor_ID a)) a (anchors b))).
Proof.
  intros [(Hs & Ha & Hv & Hks & Hka) [Hc Hvk]].
  split; [split; [| split; [| split; [| split]]] | split]; cbn; try assumption.
  - now apply put_sorted.
  - apply put_Forall; [assumption | reflexivity].
Qed.

Lemma good_put_version b key v :
  good_store b -> ends_with_colon key = false ->
  good_store {| stags := stags b; anchors := anchors b;
                versions := Bucket.put key v (versions b) |}.
Proof.
  intros [(Hs & Ha & Hv & Hks & Hka) [Hc Hvk]] Hkey.
  split; [split; [| split; [| split; [| split]]] | split]; cbn; try assumption.
  - now apply put_sorted.
  - apply put_Forall; assumption.
Qed.

Lemma GetStag_good stagID :
  hoare good (GetStag stagID)
        (fun g s => good s /\ counters_agree g /\ stag_ID g = stagID) good.
Proof.
  intros s Hs. rewrite GetStag_eq.
  destruct (Bucket.get stagID (stags (db s))) as [g |] eqn:Hg; [| exact Hs].
  split; [exact Hs |]. exact (good_get_stag _ _ _ Hs Hg).
Qed.

Lemma CreateStag_good now stagID :
  hoare good (CreateStag now (new_stag now stagID))
        (fun g s => good s /\ counters_agree g /\ stag_ID g = stagID) good.
Proof.
  unfold CreateStag.
  apply (hoare_Update good_store
           (fun g b => good_store b /\ counters_agree g /\ stag_ID g = stagID)).
  intros b b' g Hb. cbv beta. cbn [stag_ID new_stag].
  destruct (Bucket.get stagID (stags b)); [discriminate |].
  intros [= <- <-].
  assert (Hg : counters_agree (stag_with_times (new_stag now stagID) now now))
    by (repeat split).
  split; [| split; [exact Hg | reflexivity]].
  exact (good_put_stag b _ Hb Hg).
Qed.

Lemma GetAnchor_good stagID anchorID :
  hoare good (GetAnchor stagID anchorID)
        (fun a s => good s /\
                    anchor_key (anchor_StagID a) (anchor_ID a)
                    = anchor_key stagID anchorID) good.
Proof.
  intros s Hs. rewrite GetAnchor_eq.
  destruct (Bucket.get _ (anchors (db s))) as [a |] eqn:Ha; [| exact Hs].
  split; [exact Hs |]. exact (good_get_anchor _ _ _ Hs Ha).
Qed.

Lemma CreateAnchor_good now anchor :
  hoare good (CreateAnchor now anchor)
        (fun a s => good s /\
                    anchor_key (anchor_StagID a) (anchor_ID a)
                    = anchor_key (anchor_StagID anchor) (anchor_ID anchor)) good.
Proof.
  unfold CreateAnchor.
  apply (hoare_Update good_store
           (fun a b => good_store b /\
                       anchor_key (anchor_StagID a) (anchor_ID a)
                       = anchor_key (anchor_StagID anchor) (anchor_ID anchor))).
  intros b b' a Hb. cbv beta zeta.
  destruct (Bucket.get _ (anchors b)); [discriminate |].
  intros [= <- <-]. split; [| reflexivity].
  exact (good_put_anchor b (anchor_with_times anchor now now) Hb).
Qed.

Lemma UpdateAnchor_good now anchor :
  hoare good (UpdateAnchor now anchor) (fun _ s => good s) good.
Proof.
  unfold UpdateAnchor. apply (hoare_Update good_store (fun _ b => good_store b)).
  intros b b' a Hb. cbv beta zeta.
  destruct (Bucket.get _ (anchors b)); [| discriminate].
  intros [= <- _].
  exact (good_put_anchor b (anchor_with_times anchor (anchor_CreatedAt anchor) now) Hb).
Qed.

Lemma AddAnchorVersion_good stagID anchorID version :
  ends_with_colon (version_key stagID anchorID (VersionID version)) = false ->
  hoare good (AddAnchorVersion stagID anchorID version) (fun _ s => good s) good.
Proof.
  intros Hkey.
  unfold AddAnchorVersion. apply (hoare_Update good_store (fun _ b => good_store b)).
  intros b b' a Hb [= <- _]. now apply good_put_version.
Qed.

Lemma UpdateStagStats_good now stagID st :
  EventCount st = VersionCount st /\ SessionCount st = VersionCount st /\
  ClientCount st = VersionCount st /\ DeviceCount st = VersionCount st ->
  hoare good (UpdateStagStats now stagID st) (fun _ s => good s) good.
Proof.
  intros Hst. unfold UpdateStagStats.
  apply (hoare_Update good_store (fun _ b => good_store b)).
  intros b b' a Hb. cbv beta.
  destruct (Bucket.get stagID (stags b)) as [g |] eqn:Hg; [| discriminate].
  intros [= <- _]. destruct (good_get_stag _ _ _ Hb Hg) as [(Hm & _) Hid].
  rewrite <- Hid at 1.
  apply (good_put_stag b (stag_with_stats g st now) Hb).
  split; [exact Hm | exact Hst].
Qed.

Lemma append_version_good now stag anchorID event h anchor md :
  counters_agree stag ->
  hoare good (append_version now stag anchorID event h anchor md)
        (fun _ s => good s) good.
Proof.
  intros Hst. unfold append_version.
  eapply hoare_bind;
    [apply hoare_wrap, AddAnchorVersion_good, version_key_no_colon | intros ?; cbv beta].
  eapply hoare_bind; [apply hoare_wrap, UpdateAnchor_good | intros ?; cbv beta].
  apply hoare_wrap, UpdateStagStats_good. now apply updated_stats_agree.
Qed.

Lemma processAnchorEvent_good now stag anchorID event :
  counters_agree stag ->
  hoare good (processAnchorEvent now stag anchorID event) (fun _ s => good s) good.
Proof.
  intros Hst. unfold processAnchorEvent.
  eapply hoare_bind with (R := fun _ s => good s).
  - eapply hoare_orelse.
    + eapply hoare_weaken; [apply GetAnchor_good | auto | cbv beta; tauto].
    + apply hoare_wrap.
      eapply hoare_weaken; [apply CreateAnchor_good | auto | cbv beta; tauto].
  - intros anchor. cbv beta.
    destruct (String.eqb (CurrentHash anchor) _); [apply hoare_ret; auto |].
    destruct (if String.eqb (EventType event) "mesh" then ev_MeshData event else None).
    + destruct (is_string _ _ _); [apply hoare_ret; auto |].
      now apply append_version_good.
    + now apply append_version_good.
Qed.

Lemma processEvent_good now event :
  hoare good (processEvent now event) (fun _ s => good s) good.
Proof.
  rewrite processEvent_dispatch.
  eapply hoare_bind.
  - eapply hoare_orelse; [apply GetStag_good |].
    apply hoare_wrap, CreateStag_good.
  - intros stag. cbv beta. intros s (Hs & Hst & _). revert s Hs.
    change (hoare good
              match anchor_id_of event with
              | Ok anchorID => processAnchorEvent now stag anchorID event
              | Error e => fail e
              end (fun _ s => good s) good).
    destruct (anchor_id_of event).
    + now apply processAnchorEvent_good.
    + apply hoare_fail; auto.
Qed.

Lemma processEvent_good_fst now event s : good s -> good (fst (processEvent now event s)).
Proof.
  intros Hs. pose proof (processEvent_good now event s Hs) as H.
  destruct (processEvent now event s) as [s' [a | e]]; exact H.
Qed.

Lemma ingest_cons now event r s :
  ingest ((now, event) :: r) s = ingest r (fst (processEvent now event s)).
Proof.
  unfold ingest. cbn [processBatch].
  destruct (processEvent now event s) as [s' res]. cbn [fst].
  destruct (processBatch r s') as [s'' [p e]]. destruct res; reflexivity.
Qed.

Lemma ingest_good events s : good s -> good (ingest events s).
Proof.
  revert s. induction events as [| [now event] r IH]; intros s Hs; [exact Hs |].
  rewrite ingest_cons. apply IH. now apply processEvent_good_fst.
Qed.

Lemma empty_good faults : good (empty_store_with faults).
Proof. repeat split; constructor. Qed.

Lemma good_versions_complete s stagID anchorID :
  good s ->
  versions_of (db s) stagID anchorID
  = map snd (List.filter (fun kv => String.prefix (version_prefix stagID anchorID) (fst kv))
               (versions (db s))).
Proof.
  intros [(_ & _ & Hv & _) [_ Hk]]. unfold versions_of.
  apply scan_filter; [exact Hv |].
  apply (get_none_by_key ends_with_colon); [exact Hk | apply version_prefix_colon].
Qed.

(** X1: after any ingestion from the empty store, whatever commits fail, the
    keys of each bucket are strictly increasing, every graph is stored
    under its id and every anchor under the key made of its own graph id
    and id. *)
Theorem ingest_keeps_store_well_formed
    (events : list (time * SpatialEvent)) (faults : list bool) :
  store_wf (db (ingest events (empty_store_with faults))).
Proof. apply (ingest_good events _ (empty_good faults)). Qed.

(** X2: after any ingestion from the empty store, every stored graph has an
    empty metadata map and [event_count], [session_count], [client_count]
    and [device_count] all equal to [version_count]: the three id counters
    count appended versions, not distinct ids. *)
Theorem ingest_counters_all_equal_version_count
    (events : list (time * SpatialEvent)) (faults : list bool) :
  Forall (fun kv =>
            stag_Metadata (snd kv) = ∅ /\
            EventCount (Stats (snd kv)) = VersionCount (Stats (snd kv)) /\
            SessionCount (Stats (snd kv)) = VersionCount (Stats (snd kv)) /\
            ClientCount (Stats (snd kv)) = VersionCount (Stats (snd kv)) /\
            DeviceCount (Stats (snd kv)) = VersionCount (Stats (snd kv)))
         (stags (db (ingest events (empty_store_with faults)))).
Proof.
  destruct (ingest_good events _ (empty_good faults)) as (_ & Hc & _). exact Hc.
Qed.

(** X3: the cursor loop of [ListAnchors] and [GetAnchorVersions] over a
    sorted bucket returns the values whose key extends the prefix, in key
    order, when the prefix itself is not a key; when it is a key, the loop
    stops on it and returns nothing. *)
Theorem prefix_scan_of_sorted_bucket {V} (p : string) (b : Bucket.t V) :
  keys_sorted b ->
  (Bucket.get p b = None ->
   Bucket.scan p b = map snd (List.filter (fun kv => String.prefix p (fst kv)) b)) /\
  (forall v, Bucket.get p b = Some v -> Bucket.scan p b = []).
Proof.
  intros Hb. split; [now apply scan_filter |].
  intros v. now apply scan_prefix_is_key.
Qed.

(** The theorem on the versions of scenario 1, and on the anchors of a
    store in which graph a holds an anchor named "b:" and graph a:b an
    anchor x: the prefix of graph a:b is then a key, and its listing is
    empty. *)
Lemma prefix_scan_witness :
  let s1 := scenario1 1700000000 1700000001 1700000002 in
  let s2 := ingest [(1700000000, mesh_event "a" "b:" 1 flat_triangle);
                    (1700000001, event_ab_x)] empty_store in
  map VersionID (Bucket.scan "S1:A:" (versions (db s1))) = ["v1700000001"; "v1700000002"] /\
  map fst (anchors (db s2)) = ["a:b:"; "a:b:x"] /\
  on_ok (@List.length Anchor) (snd (ListAnchors "a:b" s2)) = Some 0%nat.
Proof.
  intros s1 s2.
  assert (W1 : keys_sorted (versions (db s1))).
  { apply (ingest_good
             [(1700000000, event1); (1700000001, event2); (1700000002, event3)]
             _ (empty_good [])). }
  assert (W2 : keys_sorted (anchors (db s2))).
  { apply (ingest_good
             [(1700000000, mesh_event "a" "b:" 1 flat_triangle);
              (1700000001, event_ab_x)] _ (empty_good [])). }
  split; [| split].
  - rewrite (proj1 (prefix_scan_of_sorted_bucket "S1:A:" _ W1)) by (vm_compute; reflexivity).
    vm_compute. reflexivity.
  - vm_compute. reflexivity.
  - rewrite ListAnchors_eq. unfold anchors_of.
    assert (Hkey : exists v, Bucket.get (anchor_prefix "a:b") (anchors (db s2)) = Some v)
      by (eexists; vm_compute; reflexivity).
    destruct Hkey as [v Hv].
    rewrite (proj2 (prefix_scan_of_sorted_bucket (anchor_prefix "a:b") _ W2) v Hv).
    reflexivity.
Defined.

(** X4: after any ingestion from the empty store, [GetAnchorVersions]
    returns exactly the stored versions whose key extends
    [stagID:anchorID:], in key order: no version key ends with the
    separator, so the scan never stops on its own prefix. *)
Theorem ingest_versions_listed_by_key_prefix
    (events : list (time * SpatialEvent)) (faults : list bool)
    (stagID anchorID : string) :
  let s := ingest events (empty_store_with faults) in
  GetAnchorVersions stagID anchorID s
  = (s, Ok (map snd
              (List.filter
                 (fun kv => String.prefix (version_prefix stagID anchorID) (fst kv))
                 (versions (db s))))).
Proof.
  intros s. rewrite GetAnchorVersions_eq. do 2 f_equal.
  apply good_versions_complete. apply (ingest_good events _ (empty_good faults)).
Qed.

(** ** Pagination *)

Lemma paging_loop_take items offset limit :
  forall current acc, offset <= current ->
    paging_loop items offset limit current acc
    = acc ++ firstn (Z.to_nat (limit - Z.of_nat (List.length acc))) items.
Proof.
  induction items as [| v r IH]; intros current acc Hc; cbn [paging_loop].
  - now rewrite firstn_nil, app_nil_r.
  - replace (current <? offset) with false by (symmetry; apply Z.ltb_ge; lia).
    destruct (limit <=? Z.of_nat (List.length acc)) eqn:Hl.
    + apply Z.leb_le in Hl.
      replace (Z.to_nat (limit - Z.of_nat (List.length acc))) with O by lia.
      now rewrite app_nil_r.
    + apply Z.leb_gt in Hl. rewrite IH by lia.
      rewrite length_app. cbn [List.length].
      replace (Z.to_nat (limit - Z.of_nat (List.length acc)))
        with (S (Z.to_nat (limit - Z.of_nat (List.length acc + 1)))) by lia.
      cbn [firstn]. now rewrite <- app_assoc.
Qed.

Lemma paging_loop_window items offset limit :
  forall current, current <= Z.max offset current ->
    paging_loop items offset limit current []
    = firstn (Z.to_nat limit) (skipn (Z.to_nat (offset - current)) items).
Proof.
  induction items as [| v r IH]; intros current _.
  - cbn [paging_loop]. now rewrite skipn_nil, firstn_nil.
  - destruct (current <? offset) eqn:Hc.
    + cbn [paging_loop]. rewrite Hc. apply Z.ltb_lt in Hc. rewrite IH by lia.
      replace (Z.to_nat (offset - current))
        with (S (Z.to_nat (offset - (current + 1)))) by lia.
      reflexivity.
    + apply Z.ltb_ge in Hc. rewrite paging_loop_take by lia.
      replace (Z.to_nat (offset - current)) with O by lia.
      cbn [List.length skipn app]. now rewrite Z.sub_0_r.
Qed.

(** X5: a history request is always answered with status 200: its
    versions are the stored chain without the first [offset] entries
    (none skipped for a negative offset) cut to [limit] entries, and
    [total] is the length of the whole chain.  The anchors bucket is not
    consulted, so an unknown anchor gives an empty list and total 0. *)
Theorem history_is_a_window_of_the_chain
    (stagID anchorID o l : string) (s : BoltStorage) :
  let chain := versions_of (db s) stagID anchorID in
  HandleGetAnchorHistory stagID anchorID o l s
  = HttpJSON
      {| hist_AnchorID := anchorID; hist_StagID := stagID;
         hist_Versions :=
           firstn (Z.to_nat (history_limit l))
                  (skipn (Z.to_nat (history_offset o)) chain);
         Total := Z.of_nat (List.length chain);
         Offset := history_offset o; Limit := history_limit l |}.
Proof.
  intros chain.
  unfold HandleGetAnchorHistory, GetAnchorHistory, GetAnchorVersionsWithPaging,
    bind, View, ret. cbn [snd]. fold (versions_of (db s) stagID anchorID).
  fold chain. rewrite paging_loop_window by lia. now rewrite Z.sub_0_r.
Qed.

(** ** Batches compose *)

Lemma processBatch_app l1 l2 s :
  processBatch (l1 ++ l2) s
  = let '(s1, (p1, e1)) := processBatch l1 s in
    let '(s2, (p2, e2)) := processBatch l2 s1 in
    (s2, (p1 + p2, e1 + e2)).
Proof.
  revert s. induction l1 as [| [now event] r IH]; intros s.
  - cbn [app processBatch]. destruct (processBatch l2 s) as [s2 [p2 e2]]. reflexivity.
  - cbn [app processBatch]. destruct (processEvent now event s) as [s' res].
    rewrite IH. destruct (processBatch r s') as [s1 [p1 e1]].
    destruct res; cbv beta iota; destruct (processBatch l2 s1) as [s2 [p2 e2]];
      apply f_equal; apply f_equal2; lia.
Qed.

(** X9: processing two batches one after the other is processing their
    concatenation: the store is the same and the counts add up; and the
    counts of a batch add up to its length, a failed event stops nothing. *)
Theorem batches_compose (l1 l2 : list (time * SpatialEvent)) (s : BoltStorage) :
  ingest (l1 ++ l2) s = ingest l2 (ingest l1 s) /\
  fst (snd (processBatch (l1 ++ l2) s))
    = fst (snd (processBatch l1 s)) + fst (snd (processBatch l2 (ingest l1 s))) /\
  snd (snd (processBatch (l1 ++ l2) s))
    = snd (snd (processBatch l1 s)) + snd (snd (processBatch l2 (ingest l1 s))) /\
  fst (snd (processBatch l1 s)) + snd (snd (processBatch l1 s))
    = Z.of_nat (List.length l1).
Proof.
  unfold ingest. rewrite processBatch_app.
  destruct (processBatch l1 s) as [s1 [p1 e1]] eqn:H1. cbn [fst snd].
  destruct (processBatch l2 s1) as [s2 [p2 e2]]. cbn [fst snd].
  repeat split.
  clear -H1. revert s s1 p1 e1 H1.
  induction l1 as [| [now event] r IH]; intros s s1 p1 e1 H1.
  - injection H1 as _ <- <-. reflexivity.
  - cbn [processBatch] in H1. destruct (processEvent now event s) as [s' res].
    destruct (processBatch r s') as [s'' [p e]] eqn:Hr.
    specialize (IH _ _ _ _ Hr). cbn [List.length].
    destruct res; injection H1 as _ <- <-; lia.
Qed.

(** ** Reading a successful run backwards *)

Lemma bind_ok_inv {A B} (m : M A) (f : A -> M B) s s' b :
  bind m f s = (s', Ok b) -> exists s0 a, m s = (s0, Ok a) /\ f a s0 = (s', Ok b).
Proof.
  unfold bind. destruct (m s) as [s0 [a | e]]; [eauto | discriminate].
Qed.

Lemma wrap_ok_inv {A} ctx (m : M A) s s' a :
  wrap ctx m s = (s', Ok a) -> m s = (s', Ok a).
Proof.
  unfold wrap. destruct (m s) as [s0 [a0 | e]]; [intros [= -> ->]; reflexivity | discriminate].
Qed.

Lemma Update_ok_inv {A} (fn : Buckets -> result (Buckets * A)) s s' a :
  Update fn s = (s', Ok a) -> fn (db s) = Ok (db s', a).
Proof.
  unfold Update. destruct (fn (db s)) as [[b' a0] | e]; [| discriminate].
  destruct (commit_faults s) as [| [|] fs]; [| discriminate |];
    intros [= <- ->]; reflexivity.
Qed.

Lemma get_put_kept {V} k k' (v : V) b :
  Bucket.get k b <> None -> Bucket.get k (Bucket.put k' v b) <> None.
Proof.
  intros H. destruct (string_dec k' k) as [-> | Hne].
  - rewrite get_put_same. discriminate.
  - now rewrite get_put_other.
Qed.

(** A successful [append_version] has committed its three writes. *)
Lemma append_version_ok_inv now stag anchorID event h anchor md s s' :
  append_version now stag anchorID event h anchor md s = (s', Ok tt) ->
  exists g0,
    Bucket.get (stag_ID stag) (stags (db s)) = Some g0 /\
    stags (db s') = Bucket.put (stag_ID stag)
                      (stag_with_stats g0 (updated_stats now stag event) now)
                      (stags (db s)) /\
    anchors (db s') =
      Bucket.put (anchor_key (anchor_StagID anchor) (anchor_ID anchor))
        (anchor_with_times
           (updated_anchor anchor md h event
              (new_version now h (change_type_for anchor) event))
           (anchor_CreatedAt anchor) now)
        (anchors (db s)) /\
    versions (db s') =
      Bucket.put (version_key (stag_ID stag) anchorID ("v" +:+ decimal now))
        (new_version now h (change_type_for anchor) event) (versions (db s)).
Proof.
  unfold append_version. fold (change_type_for anchor). intros H.
  apply bind_ok_inv in H as (s1 & [] & H1 & H).
  apply bind_ok_inv in H as (s2 & a2 & H2 & H3).
  apply wrap_ok_inv in H1, H2, H3.
  unfold AddAnchorVersion in H1. unfold UpdateAnchor in H2.
  unfold UpdateStagStats in H3.
  apply Update_ok_inv in H1, H2, H3.
  injection H1 as E1. cbv beta zeta in H2.
  cbn [anchor_StagID anchor_ID updated_anchor anchor_CreatedAt] in H2.
  destruct (Bucket.get _ (anchors (db s1))); [| discriminate].
  injection H2 as E2 _.
  destruct (Bucket.get (stag_ID stag) (stags (db s2))) as [g0 |] eqn:Hg; [| discriminate].
  injection H3 as E3.
  exists g0. rewrite <- E3, <- E2 in *. cbn in *. rewrite <- E1 in *. cbn in *.
  repeat split; assumption || reflexivity.
Qed.

(** ** Ingestion only puts *)

Section PutClosed.
Variable P : Buckets -> Prop.
Hypothesis HP : put_closed P.

Let PS (s : BoltStorage) : Prop := P (db s).

Lemma Update_put_closed {A} (fn : Buckets -> result (Buckets * A)) :
  (forall b b' a, P b -> fn b = Ok (b', a) -> P b') ->
  hoare PS (Update fn) (fun _ s => PS s) PS.
Proof. intros H. apply (hoare_Update P (fun _ b => P b)). exact H. Qed.

Lemma read_put_closed {A} (m : M A) :
  (forall s, fst (m s) = s) -> hoare PS m (fun _ s => PS s) PS.
Proof.
  intros H s Hs. specialize (H s). destruct (m s) as [s' [a | e]]; cbn in H; now subst.
Qed.

Lemma processAnchorEvent_put_closed now stag anchorID event :
  hoare PS (processAnchorEvent now stag anchorID event) (fun _ s => PS s) PS.
Proof.
  destruct HP as (Hs & Ha & Hv).
  unfold processAnchorEvent.
  eapply hoare_bind with (R := fun _ s => PS s).
  - eapply hoare_orelse.
    + apply read_put_closed. intros s. now rewrite GetAnchor_eq.
    + apply hoare_wrap, Update_put_closed. intros b b' r0 Hb. cbv beta zeta.
      destruct (Bucket.get _ (anchors b)); [discriminate |].
      intros [= <- _]. now apply Ha.
  - intros anchor. cbv beta.
    assert (Happ : forall md,
               hoare PS (append_version now stag anchorID event
                           (CalculateEventHash event) anchor md)
                     (fun _ s => PS s) PS).
    { intros md. unfold append_version.
      eapply hoare_bind with (R := fun _ s => PS s).
      { apply hoare_wrap, Update_put_closed. intros b b' r0 Hb [= <- _]. now apply Hv. }
      intros ?. eapply hoare_bind with (R := fun _ s => PS s).
      { apply hoare_wrap, Update_put_closed. intros b b' r0 Hb. cbv beta zeta.
        destruct (Bucket.get _ (anchors b)); [| discriminate].
        intros [= <- _]. now apply Ha. }
      intros ?. apply hoare_wrap, Update_put_closed. intros b b' r0 Hb. cbv beta.
      destruct (Bucket.get _ (stags b)); [| discriminate].
      intros [= <- _]. now apply Hs. }
    destruct (String.eqb (CurrentHash anchor) _); [apply hoare_ret; auto |].
    destruct (if String.eqb (EventType event) "mesh" then ev_MeshData event else None).
    + destruct (is_string _ _ _); [apply hoare_ret; auto | apply Happ].
    + apply Happ.
Qed.

Lemma processEvent_put_closed now event :
  hoare PS (processEvent now event) (fun _ s => PS s) PS.
Proof.
  destruct HP as (Hs & Ha & Hv).
  rewrite processEvent_dispatch.
  eapply hoare_bind with (R := fun _ s => PS s).
  - eapply hoare_orelse.
    + apply read_put_closed. intros s. now rewrite GetStag_eq.
    + apply hoare_wrap, Update_put_closed. intros b b' r0 Hb. cbv beta.
      destruct (Bucket.get _ (stags b)); [discriminate |].
      intros [= <- _]. now apply Hs.
  - intros stag. cbv beta. destruct (anchor_id_of event).
    + apply processAnchorEvent_put_closed.
    + apply hoare_fail; auto.
Qed.

Lemma processEvent_put_closed_fst now event s :
  P (db s) -> P (db (fst (processEvent now event s))).
Proof.
  intros Hs. pose proof (processEvent_put_closed now event s Hs) as H.
  destruct (processEvent now event s) as [s' [a | e]]; exact H.
Qed.

Lemma ingest_put_closed events s : P (db s) -> P (db (ingest events s)).
Proof.
  revert s. induction events as [| [now event] r IH]; intros s Hs; [exact Hs |].
  rewrite ingest_cons. apply IH. now apply processEvent_put_closed_fst.
Qed.
End PutClosed.

Lemma present_put_closed (kg ka kv : option string) :
  put_closed (fun b =>
    (forall k, kg = Some k -> Bucket.get k (stags b) <> None) /\
    (forall k, ka = Some k -> Bucket.get k (anchors b) <> None) /\
    (forall k, kv = Some k -> Bucket.get k (versions b) <> None)).
Proof.
  unfold put_closed.
  split; [| split]; intros b k v (Hg & Ha & Hv); (split; [| split]); cbn; intros k0 E;
    try apply get_put_kept; auto.
Qed.

(** X6: ingestion never removes a key: a graph, an anchor or a version
    key that is stored before a sequence of events is stored after it,
    whatever commits fail. *)
Theorem ingest_never_removes_a_key
    (events : list (time * SpatialEvent)) (s : BoltStorage) (k : string) :
  (Bucket.get k (stags (db s)) <> None ->
   Bucket.get k (stags (db (ingest events s))) <> None) /\
  (Bucket.get k (anchors (db s)) <> None ->
   Bucket.get k (anchors (db (ingest events s))) <> None) /\
  (Bucket.get k (versions (db s)) <> None ->
   Bucket.get k (versions (db (ingest events s))) <> None).
Proof.
  split; [| split]; intros H.
  - apply (ingest_put_closed _ (present_put_closed (Some k) None None) events s);
      [| reflexivity].
    repeat split; intros k0 [=]. now subst.
  - apply (ingest_put_closed _ (present_put_closed None (Some k) None) events s);
      [| reflexivity].
    repeat split; intros k0 [=]. now subst.
  - apply (ingest_put_closed _ (present_put_closed None None (Some k)) events s);
      [| reflexivity].
    repeat split; intros k0 [=]. now subst.
Qed.

(** The theorem on the store left by events 1 and 2 of scenario 1, and
    event 3 after them. *)
Lemma ingest_never_removes_witness :
  Bucket.get "S1" (stags (db (ingest [(1700000002, event3)] store_after_event2))) <> None /\
  Bucket.get "S1:A" (anchors (db (ingest [(1700000002, event3)] store_after_event2)))
    <> None /\
  Bucket.get "S1:A:v1700000001"
             (versions (db (ingest [(1700000002, event3)] store_after_event2))) <> None.
Proof.
  split; [| split];
    apply (ingest_never_removes_a_key [(1700000002, event3)] store_after_event2);
    vm_compute; discriminate.
Defined.

(** ** A processed event is a no-op when it comes again *)

Lemma orelse_ok_inv {A} (m h : M A) s s' a :
  orelse m h s = (s', Ok a) ->
  m s = (s', Ok a) \/ (exists s0 e, m s = (s0, Error e) /\ h s0 = (s', Ok a)).
Proof.
  unfold orelse. destruct (m s) as [s0 [a0 | e]]; [now left | right; eauto].
Qed.

Lemma processAnchorEvent_again now now' stag stag' anchorID event s s' :
  good s -> stag_ID stag' = stag_ID stag ->
  processAnchorEvent now stag anchorID event s = (s', Ok tt) ->
  processAnchorEvent now' stag' anchorID event s' = (s', Ok tt).
Proof.
  intros Hs Hid H.
  pose proof H as H0. unfold processAnchorEvent in H0.
  apply bind_ok_inv in H0. destruct H0 as (s0 & anchor & Hget & Hrest).
  apply orelse_ok_inv in Hget. rewrite GetAnchor_eq in Hget.
  destruct (Bucket.get (anchor_key (stag_ID stag) anchorID) (anchors (db s)))
    as [a |] eqn:Ha.
  - destruct Hget as [Hget | (s00 & e & Hget & _)]; [| discriminate Hget].
    injection Hget as <- <-.
    destruct (String.eqb (CurrentHash (anchor_with_versions a _)) _) eqn:Hh.
    + injection Hrest as <-. apply String.eqb_eq in Hh.
      apply processAnchorEvent_same_hash with (a := a);
        [rewrite Hid; exact Ha | exact Hh].
    + destruct (if String.eqb (EventType event) "mesh" then ev_MeshData event else None)
        as [mesh |] eqn:Hm.
      * destruct (is_string _ _ _) eqn:Hsig.
        { injection Hrest as <-.
          unfold processAnchorEvent, bind, orelse.
          rewrite GetAnchor_eq, Hid, Ha, Hh, Hm, Hsig. reflexivity. }
        apply append_version_ok_inv in Hrest.
        destruct Hrest as (g0 & _ & _ & Hput & _).
        cbn [anchor_StagID anchor_ID anchor_with_versions] in Hput.
        rewrite (good_get_anchor _ _ _ Hs Ha) in Hput.
        eapply processAnchorEvent_same_hash;
          [rewrite Hid, Hput; apply get_put_same | reflexivity].
      * apply append_version_ok_inv in Hrest.
        destruct Hrest as (g0 & _ & _ & Hput & _).
        cbn [anchor_StagID anchor_ID anchor_with_versions] in Hput.
        rewrite (good_get_anchor _ _ _ Hs Ha) in Hput.
        eapply processAnchorEvent_same_hash;
          [rewrite Hid, Hput; apply get_put_same | reflexivity].
  - destruct Hget as [Hget | (s00 & e & Hget & Hcreate)]; [discriminate Hget |].
    injection Hget as <- _.
    apply wrap_ok_inv in Hcreate. unfold CreateAnchor in Hcreate.
    apply Update_ok_inv in Hcreate. cbv beta zeta in Hcreate.
    cbn [anchor_StagID anchor_ID new_anchor] in Hcreate. rewrite Ha in Hcreate.
    injection Hcreate as Hdb <-.
    cbn [CurrentHash anchor_with_times new_anchor] in Hrest.
    rewrite String.eqb_refl in Hrest. injection Hrest as <-.
    eapply processAnchorEvent_same_hash;
      [rewrite Hid, <- Hdb; cbn [anchors with_anchors]; apply get_put_same | reflexivity].
Qed.

Lemma processEvent_again now now' event s s' :
  good s ->
  processEvent now event s = (s', Ok tt) ->
  processEvent now' event s' = (s', Ok tt).
Proof.
  intros Hs H.
  assert (Hs' : good s').
  { pose proof (processEvent_good now event s Hs) as G. rewrite H in G. exact G. }
  rewrite processEvent_dispatch in H.
  apply bind_ok_inv in H. destruct H as (s0 & stag & Hstag & Hrest).
  assert (G0 : good s0 /\ stag_ID stag = stag_id_of event /\
               Bucket.get (stag_id_of event) (stags (db s0)) <> None).
  { apply orelse_ok_inv in Hstag. rewrite GetStag_eq in Hstag.
    destruct (Bucket.get (stag_id_of event) (stags (db s))) as [g |] eqn:Hg.
    - destruct Hstag as [Hstag | (s00 & e & Hstag & _)]; [| discriminate Hstag].
      injection Hstag as <- <-. split; [exact Hs |].
      split; [exact (proj2 (good_get_stag _ _ _ Hs Hg)) | now rewrite Hg].
    - destruct Hstag as [Hstag | (s00 & e & Hstag & Hcreate)]; [discriminate Hstag |].
      injection Hstag as <- _. apply wrap_ok_inv in Hcreate.
      pose proof (CreateStag_good now (stag_id_of event) s Hs) as G.
      rewrite Hcreate in G. destruct G as (G1 & _ & G2).
      split; [exact G1 |]. split; [exact G2 |].
      unfold CreateStag in Hcreate. apply Update_ok_inv in Hcreate.
      cbv beta in Hcreate. cbn [stag_ID new_stag] in Hcreate.
      rewrite Hg in Hcreate. injection Hcreate as Hdb _. rewrite <- Hdb.
      cbn [stags with_stags]. rewrite get_put_same. discriminate. }
  destruct G0 as (Hs0 & Hid & Hpresent).
  destruct (anchor_id_of event) as [anchorID | e] eqn:Haid; [| discriminate Hrest].
  assert (Hp1 : Bucket.get (stag_id_of event) (stags (db s')) <> None).
  { pose proof (processAnchorEvent_put_closed _
                  (present_put_closed (Some (stag_id_of event)) None None)
                  now stag anchorID event s0) as G.
    rewrite Hrest in G. apply G; [| reflexivity].
    repeat split; intros k0 [=]. now subst. }
  destruct (Bucket.get (stag_id_of event) (stags (db s'))) as [g1 |] eqn:Hg1;
    [| now elim Hp1].
  rewrite processEvent_dispatch. unfold bind, orelse.
  rewrite GetStag_eq, Hg1, Haid.
  apply processAnchorEvent_again with (now := now) (stag := stag) (s := s0);
    [exact Hs0 | | exact Hrest].
  rewrite stag_with_anchors_ID, Hid. exact (proj2 (good_get_stag _ _ _ Hs' Hg1)).
Qed.

(** X7: in a store reached by ingestion from the empty store, an event
    that was processed without error is a no-op when it is processed
    again, at any later clock reading: the retry succeeds and changes
    nothing, so a client may resend an acknowledged event. *)
Theorem processed_event_is_noop_when_resent
    (events : list (time * SpatialEvent)) (faults : list bool)
    (now now' : time) (event : SpatialEvent) (s' : BoltStorage) :
  processEvent now event (ingest events (empty_store_with faults)) = (s', Ok tt) ->
  processEvent now' event s' = (s', Ok tt).
Proof.
  apply processEvent_again. apply ingest_good, empty_good.
Qed.

(** The theorem on event 3 of scenario 1, which appends a version, resent
    a second later. *)
Lemma processed_event_resent_witness :
  let s' := scenario1 1700000000 1700000001 1700000002 in
  processEvent 1700000003 event3 s' = (s', Ok tt).
Proof.
  intros s'.
  apply (processed_event_is_noop_when_resent
           [(1700000000, event1); (1700000001, event2)] [] 1700000002).
  vm_compute. reflexivity.
Defined.

(** ** Batches without commit failures *)







(** ** The content hash is 32 hex digits *)

Lemma hex_of_bytes_length b : String.length (hex_of_bytes b) = (2 * List.length b)%nat.
Proof. induction b as [| x r IH]; simpl; [reflexivity | rewrite IH; lia]. Qed.

Lemma hex_digit_is_hex d : 0 <= d < 16 -> is_hex_digit (hex_digit d) = true.
Proof.
  intros Hd.
  assert (E : d = 0 \/ d = 1 \/ d = 2 \/ d = 3 \/ d = 4 \/ d = 5 \/ d = 6 \/ d = 7 \/
              d = 8 \/ d = 9 \/ d = 10 \/ d = 11 \/ d = 12 \/ d = 13 \/ d = 14 \/
              d = 15) by lia.
  repeat (destruct E as [-> | E]); try subst d; reflexivity.
Qed.

Lemma hex_of_bytes_digits b :
  Forall is_byte b ->
  Forall (fun c => is_hex_digit c = true) (list_ascii_of_string (hex_of_bytes b)).
Proof.
  induction 1 as [| x r Hx Hr IH]; simpl; [constructor |].
  unfold is_byte in Hx.
  constructor; [| constructor; [| exact IH]]; apply hex_digit_is_hex.
  - split; [apply Z.div_pos | apply Z.div_lt_upper_bound]; lia.
  - apply Z.mod_pos_bound. lia.
Qed.

Lemma md5_sum_length msg : List.length (MD5.sum msg) = 16%nat.
Proof. unfold MD5.sum. rewrite !length_app, !le_bytes_length. reflexivity. Qed.

(** X10: the content hash of every event is a string of exactly 32
    characters, each one of [0-9a-f]; the engine's [contentHash[:8]] is
    therefore always defined. *)
Theorem content_hash_is_32_hex_digits (event : SpatialEvent) :
  String.length (CalculateEventHash event) = 32%nat /\
  Forall (fun c => is_hex_digit c = true)
         (list_ascii_of_string (CalculateEventHash event)).
Proof.
  unfold CalculateEventHash. split.
  - now rewrite hex_of_bytes_length, md5_sum_length.
  - apply hex_of_bytes_digits, md5_sum_is_byte.
Qed.

(** ** Sampling of faces, depth values and points *)

Lemma step10_loop {A} (emit : A -> bytes) (l : list A) (d : A) :
  sample_loop (fun i => emit (nth i l d)) 10 (List.length l) (List.length l) 0
  = flat_map emit (every_10th l d).
Proof.
  unfold every_10th. set (n := List.length l). set (m := ((n + 9) / 10)%nat).
  assert (Hm : (10 * m < n + 10 /\ n <= 10 * m)%nat).
  { unfold m. pose proof (Nat.div_mod_eq (n + 9) 10).
    pose proof (Nat.mod_upper_bound (n + 9) 10). lia. }
  rewrite (sample_loop_unroll _ 10 n m) by lia.
  rewrite flat_map_of_map. reflexivity.
Qed.

Lemma over_1000 {A} (l : list A) :
  (1000 <? List.length l)%nat = negb (List.length l <=? 1000)%nat.
Proof.
  destruct (List.length l <=? 1000)%nat eqn:H.
  - apply Nat.leb_le in H. apply Nat.ltb_ge. lia.
  - apply Nat.leb_gt in H. apply Nat.ltb_lt. lia.
Qed.

(** X11: the loops of the hasher read a face array and a depth array whole
    up to 1000 elements and at indexes 0, 10, 20, ... above; a point cloud
    is read like the vertices of a mesh, whole up to 1000 points and every
    10th point above.  Elements in between are not part of the hash. *)
Theorem hasher_sampling_closed_form :
  (forall faces : list Z,
     mesh_face_feed faces = flat_map le_uint32 (sampled_over_1000 faces 0)) /\
  (forall depth : DepthData,
     hashDepthData depth
     = le_int32 (depth_Width depth) ++ le_int32 (depth_Height depth) ++
       le_int32 (Z.of_nat (List.length (depth_Data depth))) ++
       all_floats (sampled_over_1000 (depth_Data depth) 0)) /\
  (forall pc : PointCloudData,
     hashPointCloudData pc
     = le_int32 (Z.of_nat (List.length (Points pc))) ++
       (if (vertex_count (Points pc) <=? 1000)%nat then all_floats (Points pc)
        else flat_map all_floats (every_10th_vertex (Points pc)))).
Proof.
  split; [| split].
  - intros faces. unfold mesh_face_feed, sampled_over_1000. rewrite over_1000.
    destruct (List.length faces <=? 1000)%nat; cbn [negb]; [reflexivity |].
    apply (step10_loop le_uint32).
  - intros depth. unfold hashDepthData, sampled_over_1000. rewrite over_1000.
    do 3 f_equal.
    destruct (List.length (depth_Data depth) <=? 1000)%nat; cbn [negb]; [reflexivity |].
    apply (step10_loop le_float64).
  - intros pc. unfold hashPointCloudData. f_equal.
    exact (mesh_vertex_feed_spec (Points pc)).
Qed.

(** ** The batch processor *)

Section Worker.
Context {E State : Type}.
Variable processor : list E -> State -> State.

Import BatchProcessor.

Lemma flush_calls (bp : t E) st :
  flush processor bp st
  = (fst (flush record_calls bp []),
     fold_left (fun st b => processor b st) (snd (flush record_calls bp [])) st).
Proof. unfold flush. destruct (batch bp); reflexivity. Qed.

Lemma flush_record (bp : t E) calls :
  flush record_calls bp calls
  = (fst (flush record_calls bp []), calls ++ snd (flush record_calls bp [])).
Proof.
  unfold flush, record_calls. destruct (batch bp); cbn [fst snd]; [| reflexivity].
  now rewrite app_nil_r.
Qed.

Lemma run_record cases : forall (bp : t E) calls,
  run record_calls cases bp calls
  = (fst (run record_calls cases bp []), calls ++ snd (run record_calls cases bp [])).
Proof.
  induction cases as [| [event | |] r IH]; intros bp calls; cbn [run fst snd].
  - now rewrite app_nil_r.
  - destruct (_ <=? _).
    + rewrite (flush_record _ calls), (flush_record _ []). cbn [app].
      destruct (flush record_calls _ []) as [bp1 c1]. cbn [fst snd].
      rewrite (IH bp1 (calls ++ c1)), (IH bp1 c1). cbn [fst snd].
      now rewrite app_assoc.
    + apply IH.
  - rewrite (flush_record _ calls), (flush_record _ []). cbn [app].
    destruct (flush record_calls bp []) as [bp1 c1]. cbn [fst snd].
    rewrite (IH bp1 (calls ++ c1)), (IH bp1 c1). cbn [fst snd].
    now rewrite app_assoc.
  - apply flush_record.
Qed.

(** The worker with any processor is the worker that records its calls,
    followed by the calls. *)
Lemma run_calls cases : forall (bp : t E) st,
  run processor cases bp st
  = (fst (run record_calls cases bp []),
     fold_left (fun st b => processor b st) (snd (run record_calls cases bp [])) st).
Proof.
  induction cases as [| [event | |] r IH]; intros bp st; cbn [run fst snd].
  - reflexivity.
  - destruct (_ <=? _).
    + rewrite flush_calls. destruct (flush record_calls _ []) as [bp1 c1]. cbn [fst snd].
      rewrite IH, (run_record r bp1 c1). cbn [fst snd]. now rewrite fold_left_app.
    + apply IH.
  - rewrite flush_calls. destruct (flush record_calls bp []) as [bp1 c1]. cbn [fst snd].
    rewrite IH, (run_record r bp1 c1). cbn [fst snd]. now rewrite fold_left_app.
  - apply flush_calls.
Qed.

Lemma run_conserves cases : forall (bp : t E),
  Z.of_nat (List.length (batch bp)) < Z.max (batchSize bp) 1 ->
  let r := run record_calls cases bp [] in
  batchSize (fst r) = batchSize bp /\
  concat (snd r) ++ batch (fst r) = batch bp ++ received cases /\
  Forall (fun b => 1 <= Z.of_nat (List.length b) <= Z.max (batchSize bp) 1) (snd r) /\
  Z.of_nat (List.length (batch (fst r))) < Z.max (batchSize bp) 1 /\
  (returned cases = true -> batch (fst r) = []).
Proof.
  assert (Hflush : forall bp : t E,
             0 < Z.of_nat (List.length (batch bp)) <= Z.max (batchSize bp) 1 ->
             flush record_calls bp []
             = ({| batchSize := batchSize bp; batch := [] |}, [batch bp])).
  { intros bp H. unfold flush, record_calls.
    destruct (batch bp); [cbn in H; lia | reflexivity]. }
  induction cases as [| [event | |] r IH]; intros bp Hb; cbn zeta.
  - cbn [run received returned fst snd concat app]. rewrite app_nil_r.
    repeat split; [constructor | exact Hb | discriminate].
  - cbn [run received returned]. cbn zeta. cbn [batchSize batch].
    assert (Hlen : Z.of_nat (List.length (batch bp ++ [event]))
                   = Z.of_nat (List.length (batch bp)) + 1).
    { rewrite length_app. cbn [List.length]. lia. }
    destruct (batchSize bp <=? Z.of_nat (List.length (batch bp ++ [event]))) eqn:Hs.
    + apply Z.leb_le in Hs. rewrite Hflush by (cbn [batchSize batch]; lia).
      rewrite run_record. cbn [fst snd batchSize batch].
      destruct (IH {| batchSize := batchSize bp; batch := [] |}) as (I1 & I2 & I3 & I4 & I5);
        [cbn [batch batchSize List.length]; lia |].
      cbn [batchSize batch app] in I1, I2, I3, I4, I5.
      split; [exact I1 |]. split.
      { rewrite concat_app. cbn [concat]. rewrite app_nil_r, <- !app_assoc, I2.
        reflexivity. }
      split; [| split; [exact I4 | exact I5]].
      constructor; [lia | exact I3].
    + apply Z.leb_gt in Hs.
      destruct (IH {| batchSize := batchSize bp; batch := batch bp ++ [event] |})
        as (I1 & I2 & I3 & I4 & I5); [cbn [batchSize batch]; lia |].
      cbn [batchSize batch] in I1, I2, I3, I4, I5.
      split; [exact I1 |]. split; [rewrite I2; now rewrite <- app_assoc |].
      split; [exact I3 |]. split; [exact I4 | exact I5].
  - cbn [run received returned]. pose proof (IH bp Hb) as IHbp. cbn zeta in IHbp.
    destruct (batch bp) as [| e0 b0] eqn:Hbatch.
    + assert (Hf0 : flush record_calls bp [] = (bp, []))
        by (unfold flush; now rewrite Hbatch).
      rewrite Hf0.
      destruct IHbp as (I1 & I2 & I3 & I4 & I5).
      split; [exact I1 |]. split; [exact I2 |].
      split; [exact I3 |]. split; [exact I4 | exact I5].
    + rewrite Hflush by (rewrite Hbatch; cbn [List.length] in Hb |- *; lia).
      rewrite run_record. cbn [fst snd].
      destruct (IH {| batchSize := batchSize bp; batch := [] |}) as (I1 & I2 & I3 & I4 & I5);
        [cbn [batch batchSize List.length]; lia |].
      cbn [batchSize batch] in *.
      split; [exact I1 |]. split.
      { rewrite concat_app. cbn [concat]. rewrite app_nil_r, <- !app_assoc, I2, Hbatch.
        reflexivity. }
      split; [| split; [exact I4 | exact I5]].
      constructor; [rewrite Hbatch; cbn [List.length] in Hb |- *; lia | exact I3].
  - cbn [run received returned].
    destruct (batch bp) as [| e0 b0] eqn:Hbatch.
    + unfold flush. rewrite Hbatch. cbn [fst snd concat app].
      rewrite Hbatch. repeat split; [constructor | cbn [List.length]; lia].
    + rewrite Hflush by (rewrite Hbatch; cbn [List.length] in Hb |- *; lia).
      cbn [fst snd batch batchSize concat app]. rewrite Hbatch, !app_nil_r.
      repeat split; [| cbn [List.length]; lia].
      constructor; [cbn [List.length] in Hb |- *; lia | constructor].
Qed.
End Worker.

(** X12: whatever the processor does, the worker hands it every event it
    received exactly once and in arrival order, in batches of at least
    one and at most [batchSize] events (one event when [batchSize] is 0);
    fewer than [batchSize] events stay pending, none once the worker has
    returned.  A batch the processor fails on is not retried. *)
Theorem worker_hands_over_each_event_once {E State : Type}
    (processor : list E -> State -> State)
    (cases : list (BatchProcessor.select_case E)) (size : Z) (st : State) :
  0 <= size ->
  exists calls pending,
    BatchProcessor.run processor cases (BatchProcessor.NewBatchProcessor size) st
    = ({| BatchProcessor.batchSize := size; BatchProcessor.batch := pending |},
       fold_left (fun st b => processor b st) calls st) /\
    concat calls ++ pending = BatchProcessor.received cases /\
    Forall (fun b => 1 <= Z.of_nat (List.length b) <= Z.max size 1) calls /\
    Z.of_nat (List.length pending) < Z.max size 1 /\
    (BatchProcessor.returned cases = true -> pending = []).
Proof.
  intros _.
  destruct (run_conserves cases (BatchProcessor.NewBatchProcessor size))
    as (H1 & H2 & H3 & H4 & H5); [cbn; lia |].
  rewrite run_calls.
  destruct (BatchProcessor.run BatchProcessor.record_calls cases
              (BatchProcessor.NewBatchProcessor size) []) as [[sz pending] calls].
  cbn [fst snd BatchProcessor.batchSize BatchProcessor.batch
       BatchProcessor.NewBatchProcessor] in *.
  exists calls, pending. subst sz. repeat split; assumption.
Qed.

Lemma ingest_app l1 l2 s : ingest (l1 ++ l2) s = ingest l2 (ingest l1 s).
Proof.
  unfold ingest. rewrite processBatch_app.
  destruct (processBatch l1 s) as [s1 [p1 e1]]. cbn [fst].
  destruct (processBatch l2 s1) as [s2 [p2 e2]]. reflexivity.
Qed.

Lemma service_calls calls : forall s,
  fold_left (fun st b => service_processor b st) calls s = ingest (concat calls) s.
Proof.
  induction calls as [| b r IH]; intros s; cbn [fold_left concat]; [reflexivity |].
  rewrite IH, ingest_app. reflexivity.
Qed.

(** X13: for given clock readings of the events, the store the service's
    worker leaves does not depend on how the flush timer cut the stream
    into batches: it is the store after the events handed over so far,
    processed one by one in arrival order; those and the pending events
    (fewer than 50, none after the worker returned) make up the events
    received. *)
Theorem service_worker_store_is_independent_of_batching
    (cases : list (BatchProcessor.select_case (time * SpatialEvent))) (s : BoltStorage) :
  exists processed pending,
    service_worker cases s
    = ({| BatchProcessor.batchSize := 50; BatchProcessor.batch := pending |},
       ingest processed s) /\
    processed ++ pending = BatchProcessor.received cases /\
    (List.length pending < 50)%nat /\
    (BatchProcessor.returned cases = true -> pending = []).
Proof.
  destruct (run_conserves cases
              (@BatchProcessor.NewBatchProcessor (time * SpatialEvent) 50))
    as (H1 & H2 & _ & H4 & H5); [cbn; lia |].
  unfold service_worker. rewrite run_calls, service_calls.
  destruct (BatchProcessor.run BatchProcessor.record_calls cases
              (BatchProcessor.NewBatchProcessor 50) []) as [[sz pending] calls].
  cbn [fst snd BatchProcessor.batchSize BatchProcessor.batch
       BatchProcessor.NewBatchProcessor] in *.
  exists (concat calls), pending. subst sz.
  split; [reflexivity |]. split; [exact H2 |]. split; [lia | exact H5].
Qed.

(** The worker with batches of two, on three events with a tick between
    them, recording its calls. *)
Lemma worker_hands_over_witness :
  exists calls pending,
    BatchProcessor.run BatchProcessor.record_calls
      [BatchProcessor.Recv 1; BatchProcessor.Tick; BatchProcessor.Recv 2;
       BatchProcessor.Recv 3; BatchProcessor.Recv 4; BatchProcessor.Done]
      (BatchProcessor.NewBatchProcessor 2) []
    = ({| BatchProcessor.batchSize := 2; BatchProcessor.batch := pending |},
       fold_left (fun st b => BatchProcessor.record_calls b st) calls []) /\
    concat calls ++ pending = [1; 2; 3; 4] /\
    Forall (fun b => 1 <= Z.of_nat (List.length b) <= Z.max 2 1) calls /\
    Z.of_nat (List.length pending) < Z.max 2 1 /\
    (true = true -> pending = []).
Proof.
  apply (worker_hands_over_each_event_once BatchProcessor.record_calls
           [BatchProcessor.Recv 1; BatchProcessor.Tick; BatchProcessor.Recv 2;
            BatchProcessor.Recv 3; BatchProcessor.Recv 4; BatchProcessor.Done]
           2 []).
  lia.
Defined.

(** The service's worker on the three events of scenario 1, cut by a tick
    after the first. *)
Lemma service_worker_witness :
  exists processed pending,
    service_worker
      [BatchProcessor.Recv (1700000000, event1); BatchProcessor.Tick;
       BatchProcessor.Recv (1700000001, event2);
       BatchProcessor.Recv (1700000002, event3); BatchProcessor.Done] empty_store
    = ({| BatchProcessor.batchSize := 50; BatchProcessor.batch := pending |},
       ingest processed empty_store) /\
    processed ++ pending
    = [(1700000000, event1); (1700000001, event2); (1700000002, event3)] /\
    (List.length pending < 50)%nat /\
    (true = true -> pending = []).
Proof.
  exact (service_worker_store_is_independent_of_batching
           [BatchProcessor.Recv (1700000000, event1); BatchProcessor.Tick;
            BatchProcessor.Recv (1700000001, event2);
            BatchProcessor.Recv (1700000002, event3); BatchProcessor.Done]
           empty_store).
Defined.

(** ** No version without its anchor, no anchor without its graph *)

Lemma hoare_conj {A} P1 P2 E1 E2 (Q1 Q2 : A -> BoltStorage -> Prop) (m : M A) :
  hoare P1 m Q1 E1 -> hoare P2 m Q2 E2 ->
  hoare (fun s => P1 s /\ P2 s) m (fun a s => Q1 a s /\ Q2 a s) (fun s => E1 s /\ E2 s).
Proof.
  intros H1 H2 s [Hs1 Hs2]. specialize (H1 s Hs1). specialize (H2 s Hs2).
  destruct (m s) as [s' [a | e]]; split; assumption.
Qed.

Lemma hoare_conseq {A} P P' E E' (Q Q' : A -> BoltStorage -> Prop) (m : M A) :
  hoare P' m Q' E' -> (forall s, P s -> P' s) ->
  (forall a s, Q' a s -> Q a s) -> (forall s, E' s -> E s) -> hoare P m Q E.
Proof.
  intros Hm HP HQ HE s Hs. specialize (Hm s (HP s Hs)).
  destruct (m s) as [s' [a | e]]; auto.
Qed.

Lemma linked_put_stag b k v :
  linked b -> linked (with_stags b (Bucket.put k v (stags b))).
Proof.
  intros [Ha Hv]. split; cbn [stags anchors versions with_stags]; [| exact Hv].
  eapply List.Forall_impl; [| exact Ha]. intros kv H. now apply get_put_kept.
Qed.

Lemma linked_put_anchor b k a :
  linked b -> Bucket.get (anchor_StagID a) (stags b) <> None ->
  linked (with_anchors b (Bucket.put k a (anchors b))).
Proof.
  intros [Ha Hv] Hg. split; cbn [stags anchors versions with_anchors].
  - apply put_Forall; assumption.
  - eapply List.Forall_impl; [| exact Hv].
    intros kv (stagID & anchorID & Hk & Hp). exists stagID, anchorID.
    split; [exact Hk | now apply get_put_kept].
Qed.

Lemma linked_put_version b stagID anchorID v :
  linked b -> Bucket.get (anchor_key stagID anchorID) (anchors b) <> None ->
  linked {| stags := stags b; anchors := anchors b;
            versions := Bucket.put (version_key stagID anchorID (VersionID v)) v
                          (versions b) |}.
Proof.
  intros [Ha Hv] Hg. split; cbn [stags anchors versions]; [exact Ha |].
  apply put_Forall; [exact Hv |]. exists stagID, anchorID. split; [reflexivity | exact Hg].
Qed.

Lemma get_or_create_stag_linked now stagID :
  hoare (fun s => linked (db s))
        (orelse (GetStag stagID)
           (wrap "failed to create stag" (CreateStag now (new_stag now stagID))))
        (fun _ s => linked (db s) /\ Bucket.get stagID (stags (db s)) <> None)
        (fun s => linked (db s)).
Proof.
  eapply hoare_orelse with (R := fun s => linked (db s)).
  - intros s Hs. rewrite GetStag_eq.
    destruct (Bucket.get stagID (stags (db s))) eqn:Hg; [| exact Hs].
    split; [exact Hs | discriminate].
  - apply hoare_wrap. unfold CreateStag.
    apply (hoare_Update linked
             (fun _ b => linked b /\ Bucket.get stagID (stags b) <> None)).
    intros b b' g Hb. cbv beta. cbn [stag_ID new_stag].
    destruct (Bucket.get stagID (stags b)); [discriminate |].
    intros [= <- _]. split; [now apply linked_put_stag |].
    cbn [stags with_stags]. rewrite get_put_same. discriminate.
Qed.

Lemma processAnchorEvent_linked now stag anchorID event :
  hoare (fun s => linked (db s) /\ Bucket.get (stag_ID stag) (stags (db s)) <> None)
        (processAnchorEvent now stag anchorID event)
        (fun _ s => linked (db s)) (fun s => linked (db s)).
Proof.
  set (PB := fun b => linked b /\ Bucket.get (stag_ID stag) (stags b) <> None).
  set (RB := fun (anchor : Anchor) b =>
               PB b /\
               Bucket.get (anchor_key (stag_ID stag) anchorID) (anchors b) <> None /\
               Bucket.get (anchor_StagID anchor) (stags b) <> None).
  unfold processAnchorEvent.
  apply hoare_conseq with (P' := fun s => PB (db s)) (Q' := fun _ s => PB (db s))
                          (E' := fun s => PB (db s));
    [| auto | intros ? s H; apply H | intros s H; apply H].
  eapply hoare_bind with (R := fun anchor s => RB anchor (db s)).
  - eapply hoare_orelse with (R := fun s => PB (db s)).
    + intros s Hs. rewrite GetAnchor_eq.
      destruct (Bucket.get (anchor_key (stag_ID stag) anchorID) (anchors (db s)))
        as [a |] eqn:Ha; [| exact Hs].
      split; [exact Hs |]. split; [rewrite Ha; discriminate |].
      cbn [anchor_StagID anchor_with_versions].
      destruct Hs as [[Hl _] _]. rewrite List.Forall_forall in Hl.
      exact (Hl _ (get_In _ _ _ Ha)).
    + apply hoare_wrap. unfold CreateAnchor.
      apply (hoare_Update PB RB).
      intros b b' a [Hb Hg]. cbv beta zeta. cbn [anchor_StagID anchor_ID new_anchor].
      destruct (Bucket.get _ (anchors b)); [discriminate |].
      intros [= <- <-]. cbn [anchor_StagID anchor_with_times new_anchor].
      split; [split |]; [| | split]; cbn [stags anchors with_anchors]; try assumption.
      * apply linked_put_anchor; assumption.
      * rewrite get_put_same. discriminate.
  - intros anchor. cbv beta.
    assert (Happ : forall md,
               hoare (fun s => RB anchor (db s))
                     (append_version now stag anchorID event
                        (CalculateEventHash event) anchor md)
                     (fun _ s => PB (db s)) (fun s => PB (db s))).
    { intros md. unfold append_version.
      eapply hoare_bind with (R := fun _ s => RB anchor (db s)).
      { apply hoare_wrap. unfold AddAnchorVersion.
        eapply hoare_conseq;
          [apply (hoare_Update (RB anchor) (fun _ => RB anchor))
          | auto | auto | intros s H; apply H].
        intros b b' r0 ((Hb & Hg) & Hk & Hst) [= <- _].
        split; [split |]; [| | split]; cbn [stags anchors versions]; try assumption.
        exact (linked_put_version b (stag_ID stag) anchorID (new_version now _ _ event) Hb Hk). }
      intros ?. eapply hoare_bind with (R := fun _ s => PB (db s)).
      { apply hoare_wrap. unfold UpdateAnchor.
        eapply hoare_conseq;
          [apply (hoare_Update (RB anchor) (fun _ => PB))
          | auto | auto | intros s H; apply H].
        intros b b' r0 ((Hb & Hg) & Hk & Hst). cbv beta zeta.
        match goal with
        | |- match ?x with _ => _ end = _ -> _ => destruct x
        end; [| discriminate].
        intros [= <- _]. split; [| exact Hg].
        apply linked_put_anchor; [exact Hb |]. exact Hst. }
      intros ?. apply hoare_wrap. unfold UpdateStagStats.
      apply (hoare_Update PB (fun _ => PB)).
      intros b b' r0 (Hb & Hg). cbv beta.
      destruct (Bucket.get _ (stags b)); [| discriminate].
      intros [= <- _]. split; [now apply linked_put_stag |].
      cbn [stags with_stags]. rewrite get_put_same. discriminate. }
    destruct (String.eqb (CurrentHash anchor) _);
      [apply hoare_ret; intros s H; apply H |].
    destruct (if String.eqb (EventType event) "mesh" then ev_MeshData event else None).
    + destruct (is_string _ _ _); [apply hoare_ret; intros s H; apply H | apply Happ].
    + apply Happ.
Qed.

Lemma processEvent_linked now event :
  hoare (fun s => good s /\ linked (db s)) (processEvent now event)
        (fun _ s => good s /\ linked (db s)) (fun s => good s /\ linked (db s)).
Proof.
  rewrite processEvent_dispatch.
  eapply hoare_bind.
  - apply hoare_conj.
    + eapply hoare_orelse; [apply GetStag_good | apply hoare_wrap, CreateStag_good].
    + apply get_or_create_stag_linked.
  - intros stag s [(Hs & Hst & Hid) (Hl & Hp)].
    destruct (anchor_id_of event) as [anchorID | e]; [| split; assumption].
    apply (hoare_conj _ _ _ _ _ _ _
             (processAnchorEvent_good now stag anchorID event Hst)
             (processAnchorEvent_linked now stag anchorID event)).
    split; [exact Hs |]. split; [exact Hl | now rewrite Hid].
Qed.

Lemma ingest_linked events s :
  good s /\ linked (db s) -> good (ingest events s) /\ linked (db (ingest events s)).
Proof.
  revert s. induction events as [| [now event] r IH]; intros s Hs; [exact Hs |].
  rewrite ingest_cons. apply IH.
  pose proof (processEvent_linked now event s Hs) as H.
  destruct (processEvent now event s) as [s' [a | e]]; exact H.
Qed.

(** X14: after any ingestion from the empty store, whatever commits fail,
    every stored anchor names a stored graph and every stored version lies
    under the key of a stored anchor followed by its own version id: a
    failed event may leave a version without its head update, but never a
    version without its anchor or an anchor without its graph. *)
Theorem ingest_keeps_references_between_buckets
    (events : list (time * SpatialEvent)) (faults : list bool) :
  linked (db (ingest events (empty_store_with faults))).
Proof.
  apply ingest_linked. split; [apply empty_good |]. split; constructor.
Qed.

(** ** Listings of graphs whose ids hold no separator *)

Lemma prefix_colon_free stagID stagID' anchorID :
  no_colon stagID -> no_colon stagID' ->
  String.prefix (anchor_prefix stagID) (anchor_key stagID' anchorID)
  = String.eqb stagID' stagID.
Proof.
  unfold anchor_prefix, anchor_key, no_colon. revert stagID'.
  induction stagID as [| c r IH]; intros [| c' r'] H1 H2;
    rewrite ?append_nil, ?append_cons; cbn [list_ascii_of_string] in *.
  - cbn [String.prefix String.eqb].
    destruct (ascii_dec ":" ":") as [E | E]; [| congruence].
    destruct ("" +:+ anchorID); reflexivity.
  - inversion H2; subst. cbn [String.prefix String.eqb].
    destruct (ascii_dec ":" c') as [E | E]; [congruence |].
    destruct (Ascii.eqb_spec c' ":"); [congruence | reflexivity].
  - inversion H1; subst. cbn [String.prefix String.eqb].
    destruct (ascii_dec c ":") as [E | E]; [congruence | reflexivity].
  - inversion H1; subst. inversion H2; subst. cbn [String.prefix String.eqb].
    destruct (ascii_dec c c') as [E | E].
    + subst c'. rewrite Ascii.eqb_refl. now apply IH.
    + destruct (Ascii.eqb_spec c' c); [congruence | reflexivity].
Qed.

Lemma anchor_id_nonempty event anchorID : anchor_id_of event = Ok anchorID -> anchorID <> "".
Proof.
  unfold anchor_id_of.
  repeat match goal with
         | |- context [if String.eqb ?a ?b then _ else _] =>
             destruct (String.eqb_spec a b)
         | |- context [match ?o with Some _ => _ | None => _ end] => destruct o
         end;
    intros [= <-]; try assumption; try discriminate.
Qed.

Lemma stag_id_no_colon event : no_colon (SessionID event) -> no_colon (stag_id_of event).
Proof.
  intros H. unfold stag_id_of. destruct (String.eqb _ _); [| exact H].
  unfold no_colon. cbn. repeat constructor; discriminate.
Qed.

Lemma processAnchorEvent_listing now stag anchorID event :
  no_colon (stag_ID stag) -> anchorID <> "" ->
  hoare (fun s => listing_safe (db s)) (processAnchorEvent now stag anchorID event)
        (fun _ s => listing_safe (db s)) (fun s => listing_safe (db s)).
Proof.
  intros Hsid Haid.
  set (RB := fun (anchor : Anchor) b =>
               listing_safe b /\ no_colon (anchor_StagID anchor) /\ anchor_ID anchor <> "").
  unfold processAnchorEvent.
  eapply hoare_bind with (R := fun anchor s => RB anchor (db s)).
  - eapply hoare_orelse with (R := fun s => listing_safe (db s)).
    + intros s Hs. rewrite GetAnchor_eq.
      destruct (Bucket.get (anchor_key (stag_ID stag) anchorID) (anchors (db s)))
        as [a |] eqn:Ha; [| exact Hs].
      split; [exact Hs |]. cbn [anchor_StagID anchor_ID anchor_with_versions].
      unfold listing_safe in Hs. rewrite List.Forall_forall in Hs.
      exact (Hs _ (get_In _ _ _ Ha)).
    + apply hoare_wrap. unfold CreateAnchor.
      apply (hoare_Update listing_safe RB).
      intros b b' a Hb. cbv beta zeta. cbn [anchor_StagID anchor_ID new_anchor].
      destruct (Bucket.get _ (anchors b)); [discriminate |].
      intros [= <- <-]. cbn [anchor_StagID anchor_ID anchor_with_times new_anchor].
      split; [| split; assumption].
      apply put_Forall; [exact Hb | split; assumption].
  - intros anchor. cbv beta.
    assert (Happ : forall md,
               hoare (fun s => RB anchor (db s))
                     (append_version now stag anchorID event
                        (CalculateEventHash event) anchor md)
                     (fun _ s => listing_safe (db s)) (fun s => listing_safe (db s))).
    { intros md.
      apply hoare_conseq with (P' := fun s => RB anchor (db s))
                              (Q' := fun _ s => RB anchor (db s))
                              (E' := fun s => RB anchor (db s));
        [| auto | intros ? s H; apply H | intros s H; apply H].
      unfold append_version.
      eapply hoare_bind with (R := fun _ s => RB anchor (db s)).
      { apply hoare_wrap. unfold AddAnchorVersion.
        apply (hoare_Update (RB anchor) (fun _ => RB anchor)).
        intros b b' r0 Hb [= <- _]. exact Hb. }
      intros ?. eapply hoare_bind with (R := fun _ s => RB anchor (db s)).
      { apply hoare_wrap. unfold UpdateAnchor.
        apply (hoare_Update (RB anchor) (fun _ => RB anchor)).
        intros b b' r0 (Hb & H1 & H2). cbv beta zeta.
        match goal with
        | |- match ?x with _ => _ end = _ -> _ => destruct x
        end; [| discriminate].
        intros [= <- _]. split; [| split; assumption].
        apply put_Forall; [exact Hb | split; assumption]. }
      intros ?. apply hoare_wrap. unfold UpdateStagStats.
      apply (hoare_Update (RB anchor) (fun _ => RB anchor)).
      intros b b' r0 Hb. cbv beta.
      destruct (Bucket.get _ (stags b)); [| discriminate].
      intros [= <- _]. exact Hb. }
    destruct (String.eqb (CurrentHash anchor) _);
      [apply hoare_ret; intros s H; apply H |].
    destruct (if String.eqb (EventType event) "mesh" then ev_MeshData event else None).
    + destruct (is_string _ _ _); [apply hoare_ret; intros s H; apply H | apply Happ].
    + apply Happ.
Qed.

Lemma processEvent_listing now event :
  no_colon (SessionID event) ->
  hoare (fun s => good s /\ listing_safe (db s)) (processEvent now event)
        (fun _ s => good s /\ listing_safe (db s))
        (fun s => good s /\ listing_safe (db s)).
Proof.
  intros Hsession. rewrite processEvent_dispatch.
  assert (Hstag : hoare (fun s => listing_safe (db s))
                    (orelse (GetStag (stag_id_of event))
                       (wrap "failed to create stag"
                          (CreateStag now (new_stag now (stag_id_of event)))))
                    (fun _ s => listing_safe (db s)) (fun s => listing_safe (db s))).
  { eapply hoare_orelse with (R := fun s => listing_safe (db s)).
    - intros s Hs. rewrite GetStag_eq.
      destruct (Bucket.get _ (stags (db s))); exact Hs.
    - apply hoare_wrap. unfold CreateStag.
      apply (hoare_Update listing_safe (fun _ => listing_safe)).
      intros b b' g Hb. cbv beta.
      destruct (Bucket.get _ (stags b)); [discriminate |].
      intros [= <- _]. exact Hb. }
  eapply hoare_bind.
  - apply hoare_conj; [| exact Hstag].
    eapply hoare_orelse; [apply GetStag_good | apply hoare_wrap, CreateStag_good].
  - intros stag s [(Hs & Hst & Hid) Hl].
    destruct (anchor_id_of event) as [anchorID | e] eqn:Haid; [| split; assumption].
    apply (hoare_conj _ _ _ _ _ _ _
             (processAnchorEvent_good now stag anchorID event Hst)
             (processAnchorEvent_listing now stag anchorID event
                ltac:(rewrite Hid; now apply stag_id_no_colon)
                (anchor_id_nonempty _ _ Haid))).
    split; assumption.
Qed.

Lemma ingest_listing events s :
  Forall (fun te => no_colon (SessionID (snd te))) events ->
  good s /\ listing_safe (db s) ->
  good (ingest events s) /\ listing_safe (db (ingest events s)).
Proof.
  intros Hev. revert s. induction Hev as [| [now event] r He Hr IH]; intros s Hs;
    [exact Hs |].
  rewrite ingest_cons. apply IH.
  pose proof (processEvent_listing now event He s Hs) as H.
  destruct (processEvent now event s) as [s' [a | e]]; exact H.
Qed.

Lemma filter_by_graph stagID (l : Bucket.t Anchor) :
  no_colon stagID ->
  Forall (fun kv => fst kv = anchor_key (anchor_StagID (snd kv)) (anchor_ID (snd kv))) l ->
  Forall (fun kv => no_colon (anchor_StagID (snd kv)) /\ anchor_ID (snd kv) <> "") l ->
  map snd (List.filter (fun kv => String.prefix (anchor_prefix stagID) (fst kv)) l)
  = List.filter (fun a => String.eqb (anchor_StagID a) stagID) (map snd l).
Proof.
  intros Hsid Hk Hl. induction l as [| [k a] r IH]; [reflexivity |].
  inversion Hk as [| ? ? Hk1 Hk2]; subst. inversion Hl as [| ? ? [Hl1 _] Hl2]; subst.
  cbn [fst snd] in Hk1, Hl1. cbn [List.filter map fst snd].
  rewrite Hk1, prefix_colon_free by assumption.
  destruct (String.eqb (anchor_StagID a) stagID); cbn [map]; now rewrite IH.
Qed.

(** X15: when no session id of the ingested events holds the separator
    ':', the listing of a graph whose id holds none returns exactly the
    stored anchors of that graph, in key order, whatever commits failed:
    without ':' in graph ids the prefix scan cannot reach another graph. *)
Theorem colon_free_sessions_keep_listings_apart
    (events : list (time * SpatialEvent)) (faults : list bool) (stagID : string) :
  Forall (fun te => no_colon (SessionID (snd te))) events ->
  no_colon stagID ->
  let s := ingest events (empty_store_with faults) in
  ListAnchors stagID s
  = (s, Ok (map (fun a => anchor_with_versions a (versions_of (db s) stagID (anchor_ID a)))
              (List.filter (fun a => String.eqb (anchor_StagID a) stagID)
                 (map snd (anchors (db s)))))).
Proof.
  intros Hev Hsid s.
  destruct (ingest_listing events (empty_store_with faults) Hev) as [Hg Hl];
    [split; [apply empty_good | constructor] |].
  fold s in Hg, Hl. rewrite ListAnchors_eq. unfold anchors_of. do 3 f_equal.
  destruct Hg as [(_ & Hsorted & _ & _ & Hkey) _].
  rewrite scan_filter; [now apply filter_by_graph | exact Hsorted |].
  destruct (Bucket.get (anchor_prefix stagID) (anchors (db s))) as [a |] eqn:Ha;
    [| reflexivity].
  exfalso. pose proof (get_In _ _ _ Ha) as Hin.
  unfold listing_safe in Hl. rewrite List.Forall_forall in Hl, Hkey.
  destruct (Hl _ Hin) as [Hn He]. specialize (Hkey _ Hin). cbn [fst snd] in *.
  change (anchor_prefix stagID) with (anchor_key stagID "") in Hkey.
  apply anchor_key_inj in Hkey; [| assumption | assumption].
  apply He. symmetry. apply Hkey.
Qed.

(** The theorem on the two graphs of the aliasing scenario renamed without
    separator: graph a lists its own anchor only. *)
Lemma colon_free_listing_witness :
  let s := ingest [(1700000000, mesh_event "a" "b" 1 flat_triangle);
                   (1700000001, mesh_event "ab" "c" 1 flat_triangle)] empty_store in
  on_ok (map anchor_ID) (snd (ListAnchors "a" s)) = Some ["b"].
Proof.
  intros s.
  assert (H := colon_free_sessions_keep_listings_apart
                 [(1700000000, mesh_event "a" "b" 1 flat_triangle);
                  (1700000001, mesh_event "ab" "c" 1 flat_triangle)] [] "a").
  cbv zeta in H. change (empty_store_with []) with empty_store in H. fold s in H.
  rewrite H.
  - vm_compute. reflexivity.
  - repeat constructor; discriminate.
  - repeat constructor; discriminate.
Defined.
